(** * Two Sum: three strategies (workspace/two_sum_solution.py)

    A shallow embedding of [two_sum_brute_force], [two_sum_hash_map] and
    [two_sum_two_pointers], followed by the properties of the pair-sum
    finder contract.

    Python integers are unbounded, so values and targets are [Z].  Positions
    produced by [range] and [enumerate] are natural numbers; the two
    pointers [left] and [right] are Python ints that start from
    [len(indexed_nums) - 1] (which is [-1] on the empty list), so they are
    [Z].  The dictionary [num_map] is a [gmap Z nat]. *)

From stdpp Require Import gmap list sorting.

Open Scope Z_scope.

(** * Part I: the program and the vocabulary of its specification *)

(** ** Control flow of a Python function body *)

(** The exceptions the operations used here can raise: a subscript out of
    range, and an operation applied to an object of the wrong kind. *)
Inductive exn : Type :=
  | IndexError
  | TypeError.

(** What running a block of statements can do: fall through to the next
    statement with a value, execute [return r], raise an exception, or (for
    the fuel-bounded [while]) use up its fuel. *)
Inductive flow (A : Type) : Type :=
  | Next (a : A)
  | Return (r : list nat)
  | Raise (e : exn)
  | OutOfFuel.
Arguments Next {A} a.
Arguments Return {A} r.
Arguments Raise {A} e.
Arguments OutOfFuel {A}.

Definition flow_bind {A B} (f : A → flow B) (m : flow A) : flow B :=
  match m with
  | Next a => f a
  | Return r => Return r
  | Raise e => Raise e
  | OutOfFuel => OutOfFuel
  end.

#[global] Instance flow_mbind : MBind flow := @flow_bind.
#[global] Instance flow_mret : MRet flow := @Next.

(** ** Python built-ins used by the three functions *)

Definition len {A} (l : list A) : nat := length l.

(** [range(a, b)]: the positions [a, a+1, ..., b-1] (empty when [b <= a]). *)
Definition range (a b : nat) : list nat := seq a (b - a).

(** [enumerate(l, start)]: the elements paired with their positions. *)
Fixpoint enumerate {A} (start : nat) (l : list A) : list (nat * A) :=
  match l with
  | [] => []
  | x :: l' => (start, x) :: enumerate (S start) l'
  end.

(** [l[k]]: a negative subscript counts from the end, and a subscript
    outside the list raises [IndexError]. *)
Definition getitem {A} (l : list A) (k : Z) : flow A :=
  let k' := if bool_decide (k < 0) then k + Z.of_nat (len l) else k in
  if bool_decide (k' < 0) then Raise IndexError
  else match l !! Z.to_nat k' with
       | Some x => Next x
       | None => Raise IndexError
       end.

(** [for x in xs: body], threading the variables the body assigns as the
    state [s].  A [return] or an exception inside the body leaves the loop. *)
Fixpoint for_in {X S} (xs : list X) (body : X → S → flow S) (s : S) : flow S :=
  match xs with
  | [] => Next s
  | x :: xs' =>
      match body x s with
      | Next s' => for_in xs' body s'
      | Return r => Return r
      | Raise e => Raise e
      | OutOfFuel => OutOfFuel
      end
  end.

(** [while cond: body].  The loop is not structurally recursive, so it is
    given fuel: one unit per iteration. *)
Fixpoint while {S} (fuel : nat) (cond : S → bool) (body : S → flow S) (s : S)
  : flow S :=
  match fuel with
  | O => if cond s then OutOfFuel else Next s
  | S fuel' =>
      if cond s then
        match body s with
        | Next s' => while fuel' cond body s'
        | Return r => Return r
        | Raise e => Raise e
        | OutOfFuel => OutOfFuel
        end
      else Next s
  end.

(** [l.sort(key=key)]: Python's sort is stable, and the result of a stable
    sort is determined by the input ([sort_by_key_unique] below), so it is
    modelled by straight insertion: an element is put before the first
    element of the sorted tail whose key is not smaller, hence before every
    later element with an equal key. *)
Section Sort.
Context {A : Type} (key : A → Z).

Fixpoint insert_by_key (x : A) (l : list A) : list A :=
  match l with
  | [] => [x]
  | y :: l' =>
      if bool_decide (key x ≤ key y) then x :: y :: l'
      else y :: insert_by_key x l'
  end.

Fixpoint sort_by_key (l : list A) : list A :=
  match l with
  | [] => []
  | x :: l' => insert_by_key x (sort_by_key l')
  end.

(** The order the sorted list is in. *)
Definition key_le (x y : A) : Prop := key x ≤ key y.
End Sort.

(** ** The three strategies *)

(** The body of the inner loop of [two_sum_brute_force]. *)
Definition brute_force_test (nums : list Z) (target : Z) (i j : nat)
  : flow unit :=
  a ← getitem nums (Z.of_nat i);
  b ← getitem nums (Z.of_nat j);
  if bool_decide (a + b = target) then Return [i; j] else Next ().

Definition two_sum_brute_force (nums : list Z) (target : Z) : flow Empty_set :=
  for_in (range 0 (len nums)) (λ i _,
    for_in (range (i + 1) (len nums)) (λ j _,
      brute_force_test nums target i j) ()) ();;
  Return [].

(** One iteration of the scan of [two_sum_hash_map]: [num_map] is the
    dictionary on entry, the result is the dictionary on exit or the
    returned pair. *)
Definition hash_map_body (target : Z) (entry : nat * Z)
    (num_map : gmap Z nat) : flow (gmap Z nat) :=
  let '(i, num) := entry in
  let complement := target - num in
  match num_map !! complement with
  | Some p => Return [p; i]
  | None => Next (<[num := i]> num_map)
  end.

Definition two_sum_hash_map (nums : list Z) (target : Z) : flow Empty_set :=
  for_in (enumerate 0 nums) (hash_map_body target) ∅;;
  Return [].

(** One iteration of the loop of [two_sum_two_pointers]; the state is the
    pair [(left, right)]. *)
Definition two_pointers_body (indexed_nums : list (Z * nat)) (target : Z)
    (s : Z * Z) : flow (Z * Z) :=
  let left := s.1 in
  let right := s.2 in
  l ← getitem indexed_nums left;
  r ← getitem indexed_nums right;
  let current_sum := l.1 + r.1 in
  if bool_decide (current_sum = target) then Return [l.2; r.2]
  else if bool_decide (current_sum < target) then Next (left + 1, right)
  else Next (left, right - 1).

Definition two_pointers_cond (s : Z * Z) : bool := bool_decide (s.1 < s.2).

(** [indexed_nums] after the list comprehension and the sort. *)
Definition indexed_sorted (nums : list Z) : list (Z * nat) :=
  sort_by_key fst ((λ '(idx, num), (num, idx)) <$> enumerate 0 nums).

Definition two_sum_two_pointers_fuel (fuel : nat) (nums : list Z) (target : Z)
  : flow Empty_set :=
  let indexed_nums := indexed_sorted nums in
  while fuel two_pointers_cond (two_pointers_body indexed_nums target)
    (0, Z.of_nat (len indexed_nums) - 1);;
  Return [].

(** The loop runs at most [len(nums)] times (see [two_pointers_fuel_enough]
    below: any larger amount of fuel gives the same result). *)
Definition two_sum_two_pointers (nums : list Z) (target : Z) : flow Empty_set :=
  two_sum_two_pointers_fuel (len nums) nums target.

(** ** Specification vocabulary *)

(** The sum of the values at positions [i] and [j], when both exist. *)
Definition pair_sum (nums : list Z) (i j : nat) : option Z :=
  a ← nums !! i; b ← nums !! j; Some (a + b).

(** Positions [i] and [j] are both inside [nums] and their values add up to
    [target]. *)
Definition sums_to (nums : list Z) (target : Z) (i j : nat) : Prop :=
  ∃ a b, nums !! i = Some a ∧ nums !! j = Some b ∧ a + b = target.

(** The first partner of [i] among the later positions, if any. *)
Definition first_partner (nums : list Z) (target : Z) (i : nat)
  : option (nat * nat) :=
  list_find (λ j, pair_sum nums i j = Some target)
    (range (i + 1) (len nums)).

(** [scan_state nums target k m]: the scan reaches the top of iteration [k]
    (positions [0..k-1] have been processed without returning) with
    [num_map = m]. *)
Inductive scan_state (nums : list Z) (target : Z) : nat → gmap Z nat → Prop :=
  | scan_start : scan_state nums target 0 ∅
  | scan_step k m num m' :
      scan_state nums target k m →
      nums !! k = Some num →
      hash_map_body target (k, num) m = Next m' →
      scan_state nums target (S k) m'.

(** [p] is the last position before [k] holding the value [v]. *)
Definition last_seen (nums : list Z) (k : nat) (v : Z) (p : nat) : Prop :=
  (p < k)%nat ∧ nums !! p = Some v ∧
  ∀ p', (p < p' < k)%nat → nums !! p' ≠ Some v.

(** [p] is the first position holding the value [v]. *)
Definition first_seen (nums : list Z) (v : Z) (p : nat) : Prop :=
  nums !! p = Some v ∧ ∀ p', (p' < p)%nat → nums !! p' ≠ Some v.

(** [indexed_nums] before the sort. *)
Definition indexed (nums : list Z) : list (Z * nat) :=
  (λ '(idx, num), (num, idx)) <$> enumerate 0 nums.

(** Loop invariant: both pointers are inside [indexed_nums], and every pair
    of sorted positions whose values add up to the target lies between them. *)
Definition two_pointers_inv (nums : list Z) (target : Z) (s : Z * Z) : Prop :=
  0 ≤ s.1 ∧ s.2 ≤ Z.of_nat (length nums) - 1 ∧
  ∀ a b x y, (a < b)%nat →
    indexed_sorted nums !! a = Some x → indexed_sorted nums !! b = Some y →
    x.1 + y.1 = target → s.1 ≤ Z.of_nat a ∧ Z.of_nat b ≤ s.2.

(** What a returned list is: the original positions stored at two
    different sorted positions whose values add up to the target. *)
Definition two_pointers_post (nums : list Z) (target : Z) (r : list nat)
  : Prop :=
  ∃ a b x y, (a < b)%nat ∧
    indexed_sorted nums !! a = Some x ∧ indexed_sorted nums !! b = Some y ∧
    x.1 + y.1 = target ∧ r = [x.2; y.2].

(** The distance between the pointers. *)
Definition two_pointers_gap (s : Z * Z) : nat := Z.to_nat (s.2 - s.1).

(** ** The object store *)

(** Python passes [nums] by reference: the functions receive the address of
    the caller's list.  The store maps addresses to the three kinds of
    objects the functions touch: lists of integers, lists of
    [(number, original_index)] tuples, and dictionaries. *)
Inductive pyobj : Type :=
  | PyList (l : list Z)
  | PyPairs (l : list (Z * nat))
  | PyDict (m : gmap Z nat).

Definition loc : Type := nat.

(** A computation on the store. *)
Definition run (X : Type) : Type := gmap loc pyobj → flow X * gmap loc pyobj.

Definition run_bind {X Y} (f : X → run Y) (c : run X) : run Y :=
  λ h, match c h with
       | (Next x, h') => f x h'
       | (Return r, h') => (Return r, h')
       | (Raise e, h') => (Raise e, h')
       | (OutOfFuel, h') => (OutOfFuel, h')
       end.

#[global] Instance run_mbind : MBind run := @run_bind.

(** A computation that does not touch the store. *)
Definition lift {X} (c : flow X) : run X := λ h, (c, h).

(** A new object is put at an address not in use. *)
Definition alloc (o : pyobj) : run loc :=
  λ h, let l := fresh (dom h) in (Next l, <[l := o]> h).

Definition read_list (l : loc) : run (list Z) :=
  λ h, match h !! l with
       | Some (PyList xs) => (Next xs, h)
       | _ => (Raise TypeError, h)
       end.

Definition read_pairs (l : loc) : run (list (Z * nat)) :=
  λ h, match h !! l with
       | Some (PyPairs xs) => (Next xs, h)
       | _ => (Raise TypeError, h)
       end.

Definition read_dict (l : loc) : run (gmap Z nat) :=
  λ h, match h !! l with
       | Some (PyDict m) => (Next m, h)
       | _ => (Raise TypeError, h)
       end.

Definition write (l : loc) (o : pyobj) : run unit :=
  λ h, (Next (), <[l := o]> h).

(** [len(nums)] and [nums[k]] on a list in the store. *)
Definition len_at (nums : loc) : run nat :=
  xs ← read_list nums; lift (Next (len xs)).

Definition getitem_at (nums : loc) (k : Z) : run Z :=
  xs ← read_list nums; lift (getitem xs k).

(** [d.get]-style lookup standing for [k in d] followed by [d[k]], and
    the assignment [d[k] = v], which updates the dictionary in place. *)
Definition dict_lookup_at (d : loc) (k : Z) : run (option nat) :=
  m ← read_dict d; lift (Next (m !! k)).

Definition dict_assign_at (d : loc) (k : Z) (v : nat) : run unit :=
  m ← read_dict d; write d (PyDict (<[k := v]> m)).

(** [l.sort(key=lambda x: x[0])] sorts the list at [l] in place. *)
Definition sort_at (l : loc) : run unit :=
  xs ← read_pairs l; write l (PyPairs (sort_by_key fst xs)).

Definition len_pairs_at (l : loc) : run nat :=
  xs ← read_pairs l; lift (Next (len xs)).

Definition getitem_pairs_at (l : loc) (k : Z) : run (Z * nat) :=
  xs ← read_pairs l; lift (getitem xs k).

Fixpoint for_in_at {X S} (xs : list X) (body : X → S → run S) (s : S)
  : run S :=
  match xs with
  | [] => lift (Next s)
  | x :: xs' => s' ← body x s; for_in_at xs' body s'
  end.

Fixpoint while_at {S} (fuel : nat) (cond : S → bool) (body : S → run S)
    (s : S) : run S :=
  match fuel with
  | O => lift (if cond s then OutOfFuel else Next s)
  | S fuel' =>
      if cond s then s' ← body s; while_at fuel' cond body s'
      else lift (Next s)
  end.

(** The three functions again, now on the address of the caller's list.
    [enumerate(nums)] reads [nums[i]] from the store at every step. *)
Definition two_sum_brute_force_at (nums : loc) (target : Z) : run Empty_set :=
  n ← len_at nums;
  for_in_at (range 0 n) (λ i _,
    n' ← len_at nums;
    for_in_at (range (i + 1) n') (λ j _,
      a ← getitem_at nums (Z.of_nat i);
      b ← getitem_at nums (Z.of_nat j);
      lift (if bool_decide (a + b = target) then Return [i; j] else Next ()))
      ()) ();;
  lift (Return []).

(** One iteration of the scan, on the dictionary at [num_map]. *)
Definition hash_map_body_at (nums num_map : loc) (target : Z) (i : nat)
    (_ : unit) : run unit :=
  num ← getitem_at nums (Z.of_nat i);
  let complement := target - num in
  found ← dict_lookup_at num_map complement;
  match found with
  | Some p => lift (Return [p; i])
  | None => dict_assign_at num_map num i
  end.

Definition two_sum_hash_map_at (nums : loc) (target : Z) : run Empty_set :=
  num_map ← alloc (PyDict ∅);
  n ← len_at nums;
  for_in_at (range 0 n) (hash_map_body_at nums num_map target) ();;
  lift (Return []).

(** One iteration of the two-pointer loop, on the list at [indexed_nums]. *)
Definition two_pointers_body_at (indexed_nums : loc) (target : Z) (s : Z * Z)
  : run (Z * Z) :=
  let left := s.1 in
  let right := s.2 in
  l ← getitem_pairs_at indexed_nums left;
  r ← getitem_pairs_at indexed_nums right;
  let current_sum := l.1 + r.1 in
  lift (if bool_decide (current_sum = target) then Return [l.2; r.2]
        else if bool_decide (current_sum < target) then Next (left + 1, right)
        else Next (left, right - 1)).

Definition two_sum_two_pointers_at (nums : loc) (target : Z) : run Empty_set :=
  xs ← read_list nums;
  indexed_nums ←
    alloc (PyPairs ((λ '(idx, num), (num, idx)) <$> enumerate 0 xs));
  sort_at indexed_nums;;
  n ← len_pairs_at indexed_nums;
  while_at (len xs) two_pointers_cond
    (two_pointers_body_at indexed_nums target) (0, Z.of_nat n - 1);;
  lift (Return []).

(** ** Contracts *)

(** Forget the loop state of a finished loop. *)
Definition void {A} (c : flow A) : flow unit :=
  match c with
  | Next _ => Next ()
  | Return r => Return r
  | Raise e => Raise e
  | OutOfFuel => OutOfFuel
  end.

(** Each strategy returns either a valid pair or the empty marker that
    certifies that there is none. *)
Definition finder_contract (nums : list Z) (target : Z)
    (result : flow Empty_set) : Prop :=
  (∃ i j, result = Return [i; j] ∧ i ≠ j ∧ sums_to nums target i j) ∨
  (result = Return [] ∧ ∀ i j, i ≠ j → ¬ sums_to nums target i j).

(** The invariant as the specification words it: every binding of the
    dictionary points at the first position holding its key ... *)
Definition binds_first_seen (nums : list Z) (target : Z) : Prop :=
  ∀ k m v p, scan_state nums target k m → m !! v = Some p →
    first_seen nums v p.

(** ... and an iteration that goes on never changes the binding of a value
    that is already a key. *)
Definition keeps_existing_binding (nums : list Z) (target : Z) : Prop :=
  ∀ k m num m' p, scan_state nums target k m → nums !! k = Some num →
    hash_map_body target (k, num) m = Next m' →
    m !! num = Some p → m' !! num = Some p.

(** The result names the two positions [i] and [j], in either order. *)
Definition names_pair (i j : nat) (result : flow Empty_set) : Prop :=
  result = Return [i; j] ∨ result = Return [j; i].

(** A call on the store [h] returns the value-level [result], leaves every
    object of [h] (the caller's list among them) as it was, and a second
    call on the resulting store returns the same. *)
Definition pure_call (f_at : loc → Z → run Empty_set)
    (result : flow Empty_set) (h : gmap loc pyobj) (nums : loc)
    (xs : list Z) (target : Z) : Prop :=
  ∃ r h' h'',
    result = Return r ∧
    f_at nums target h = (Return r, h') ∧
    h' !! nums = Some (PyList xs) ∧ h ⊆ h' ∧
    f_at nums target h' = (Return r, h'').

(** ** Vocabulary of the further properties *)

(** No two different positions add up to the target. *)
Definition no_pair (nums : list Z) (target : Z) : Prop :=
  ∀ i j, i ≠ j → ¬ sums_to nums target i j.

(** Position [k] is one half of some pair adding up to the target. *)
Definition in_some_pair (nums : list Z) (target : Z) (k : nat) : Prop :=
  ∃ k', k' ≠ k ∧ sums_to nums target k k'.

(** The order [indexed_nums] is in after the stable sort: by value, and by
    original position among equal values. *)
Definition value_index_le (nums : list Z) (i k : nat) : Prop :=
  ∃ a b, nums !! i = Some a ∧ nums !! k = Some b ∧
    (a < b ∨ (a = b ∧ (i ≤ k)%nat)).

(** Order by key first, then by [R] among equal keys. *)
Definition key_then {A} (key : A → Z) (R : relation A) (x y : A) : Prop :=
  key x < key y ∨ (key x = key y ∧ R x y).

(** Tuples of [indexed_nums] compared by their original position. *)
Definition index_lt (x y : Z * nat) : Prop := (x.2 < y.2)%nat.

(** What a list returned by the two-pointer loop is: the original positions
    stored at the outermost sorted positions that add up to the target. *)
Definition two_pointers_outer (nums : list Z) (target : Z) (r : list nat)
  : Prop :=
  ∃ a b x y, (a < b)%nat ∧
    indexed_sorted nums !! a = Some x ∧ indexed_sorted nums !! b = Some y ∧
    x.1 + y.1 = target ∧ r = [x.2; y.2] ∧
    ∀ a' b' x' y', (a' < b')%nat →
      indexed_sorted nums !! a' = Some x' →
      indexed_sorted nums !! b' = Some y' →
      x'.1 + y'.1 = target → (a ≤ a')%nat ∧ (b' ≤ b)%nat.

(** * Part II: properties *)

(** ** Generic facts about the control-flow combinators *)

Lemma getitem_nat {A} (l : list A) (i : nat) :
  getitem l (Z.of_nat i) =
    match l !! i with Some x => Next x | None => Raise IndexError end.
Proof.
  unfold getitem. repeat case_bool_decide; try lia. by rewrite Nat2Z.id.
Qed.

Lemma getitem_nonneg {A} (l : list A) (k : Z) :
  0 ≤ k →
  getitem l k =
    match l !! Z.to_nat k with Some x => Next x | None => Raise IndexError end.
Proof.
  intros Hk. rewrite <- (Z2Nat.id k) at 1 by done. apply getitem_nat.
Qed.

Lemma pair_sum_sums_to nums target i j :
  pair_sum nums i j = Some target ↔ sums_to nums target i j.
Proof.
  unfold pair_sum, sums_to. split.
  - destruct (nums !! i) as [a|] eqn:Ha; [|done].
    destruct (nums !! j) as [b|] eqn:Hb; [|done].
    simpl. intros [= <-]. eauto.
  - intros (a & b & -> & -> & <-). done.
Qed.

(** A [for] loop whose body only tests its element and either returns or
    goes on is a search for the first element passing the test. *)
Lemma for_in_find {X} (P : X → Prop) `{!∀ x, Decision (P x)}
    (f : X → list nat) (xs : list X) (body : X → unit → flow unit) :
  (∀ x, x ∈ xs → body x () = if decide (P x) then Return (f x) else Next ()) →
  for_in xs body () =
    match list_find P xs with
    | Some (_, x) => Return (f x)
    | None => Next ()
    end.
Proof.
  induction xs as [|x xs IH]; intros Hbody; [done|].
  simpl. rewrite Hbody by left.
  destruct (decide (P x)) as [HP|HP]; [done|].
  rewrite IH by (intros y Hy; apply Hbody; by right).
  by destruct (list_find P xs) as [[? ?]|].
Qed.

Lemma lookup_range a b k :
  range a b !! k = if decide (a + k < b)%nat then Some (a + k)%nat else None.
Proof.
  unfold range. case_decide.
  - apply lookup_seq_lt. lia.
  - apply lookup_seq_ge. lia.
Qed.

Lemma elem_of_range a b i : i ∈ range a b ↔ (a ≤ i < b)%nat.
Proof. unfold range. rewrite elem_of_seq. lia. Qed.

(** ** Brute force *)

Lemma brute_force_test_in_range nums target i j :
  (i < length nums)%nat → (j < length nums)%nat →
  brute_force_test nums target i j =
    if decide (pair_sum nums i j = Some target) then Return [i; j]
    else Next ().
Proof.
  intros Hi Hj. unfold brute_force_test, pair_sum.
  rewrite !getitem_nat.
  destruct (lookup_lt_is_Some_2 nums i Hi) as [a ->].
  destruct (lookup_lt_is_Some_2 nums j Hj) as [b ->].
  simpl. case_bool_decide; case_decide; congruence.
Qed.

Lemma brute_force_inner nums target i :
  (i < length nums)%nat →
  for_in (range (i + 1) (len nums))
    (λ j _, brute_force_test nums target i j) () =
    if decide (is_Some (first_partner nums target i))
    then Return (match first_partner nums target i with
                 | Some (_, j) => [i; j]
                 | None => []
                 end)
    else Next ().
Proof.
  intros Hi.
  rewrite (for_in_find (λ j, pair_sum nums i j = Some target)
             (λ j, [i; j])).
  - unfold first_partner.
    destruct (list_find _ _) as [[? j]|] eqn:E.
    + rewrite decide_True; [done|by eexists].
    + rewrite decide_False; [done|]. by intros [? ?].
  - intros j Hj%elem_of_range. apply brute_force_test_in_range; [done|].
    unfold len in Hj. lia.
Qed.

Lemma first_partner_Some nums target i k j :
  first_partner nums target i = Some (k, j) →
  (i < j)%nat ∧ sums_to nums target i j ∧
  ∀ j', (i < j')%nat → sums_to nums target i j' → (j ≤ j')%nat.
Proof.
  unfold first_partner. intros (Hk & Hsum & Hmin)%list_find_Some.
  rewrite lookup_range in Hk. case_decide; [|done].
  injection Hk as Hjk. split; [lia|]. split; [by apply pair_sum_sums_to|].
  intros j' Hij' Hs.
  destruct (decide (j ≤ j')%nat) as [|Hlt]; [done|exfalso].
  apply (Hmin (j' - (i + 1))%nat j'); [| lia | by apply pair_sum_sums_to].
  rewrite lookup_range. rewrite decide_True by lia. f_equal. lia.
Qed.

Lemma first_partner_None nums target i j :
  first_partner nums target i = None →
  (i < j)%nat → ¬ sums_to nums target i j.
Proof.
  unfold first_partner. intros HNone%list_find_None Hij Hs.
  rewrite Forall_forall in HNone. apply (HNone j).
  - apply elem_of_range. destruct Hs as (a & b & _ & Hb%lookup_lt_Some & _).
    unfold len. lia.
  - by apply pair_sum_sums_to.
Qed.

(** What [two_sum_brute_force] computes: the search over [i] for the first
    position that has a partner, then that position's first partner. *)
Lemma brute_force_find nums target :
  two_sum_brute_force nums target =
    match list_find (λ i, is_Some (first_partner nums target i))
            (range 0 (len nums)) with
    | Some (_, i) =>
        Return (match first_partner nums target i with
                | Some (_, j) => [i; j]
                | None => []
                end)
    | None => Return []
    end.
Proof.
  unfold two_sum_brute_force.
  rewrite (for_in_find (λ i, is_Some (first_partner nums target i))
             (λ i, match first_partner nums target i with
                   | Some (_, j) => [i; j]
                   | None => []
                   end)).
  - by destruct (list_find _ _) as [[? ?]|].
  - intros i Hi%elem_of_range. apply brute_force_inner. unfold len in Hi. lia.
Qed.

(** The full input/output description of the brute-force strategy. *)
Lemma brute_force_spec nums target :
  (∃ i j, two_sum_brute_force nums target = Return [i; j] ∧
     (i < j)%nat ∧ sums_to nums target i j ∧
     ∀ i' j', (i' < j')%nat → sums_to nums target i' j' →
       (i < i')%nat ∨ (i = i' ∧ (j ≤ j')%nat)) ∨
  (two_sum_brute_force nums target = Return [] ∧
     ∀ i j, (i < j)%nat → ¬ sums_to nums target i j).
Proof.
  rewrite brute_force_find.
  destruct (list_find _ _) as [[k i]|] eqn:E.
  - left. apply list_find_Some in E as (Hk & [[k' j] Hj] & Hmin).
    exists i, j. rewrite Hj. split; [done|].
    destruct (first_partner_Some _ _ _ _ _ Hj) as (Hij & Hs & Hjmin).
    rewrite lookup_range in Hk. case_decide; [|done]. injection Hk as Hki.
    split_and!; [done..|]. intros i' j' Hij' Hs'.
    destruct (decide (i < i')%nat) as [|Hge]; [by left|right].
    destruct (decide (i = i')) as [<-|Hne]; [split; [done|by apply Hjmin]|].
    exfalso. apply (Hmin i' i'); [|lia|].
    + rewrite lookup_range, decide_True; [done|lia].
    + destruct (first_partner nums target i') as [[? ?]|] eqn:E'; [done|].
      by destruct (first_partner_None _ _ _ _ E' Hij' Hs').
  - right. split; [done|]. intros i j Hij Hs.
    apply list_find_None in E. rewrite Forall_forall in E.
    apply (E i).
    + apply elem_of_range. destruct Hs as (a & b & Ha%lookup_lt_Some & _).
      unfold len. lia.
    + destruct (first_partner nums target i) as [[? ?]|] eqn:E'; [done|].
      by destruct (first_partner_None _ _ _ _ E' Hij Hs).
Qed.

(** ** Hash-map scan *)

Lemma hash_map_body_Next target k num m m' :
  hash_map_body target (k, num) m = Next m' ↔
  m !! (target - num) = None ∧ m' = <[num := k]> m.
Proof.
  unfold hash_map_body. destruct (m !! (target - num)).
  - split; [done|]. by intros [? _].
  - split; [by intros [= <-]|]. by intros [_ ->].
Qed.

Lemma hash_map_body_Return target k num m r :
  hash_map_body target (k, num) m = Return r ↔
  ∃ p, m !! (target - num) = Some p ∧ r = [p; k].
Proof.
  unfold hash_map_body. destruct (m !! (target - num)) as [p'|].
  - split; [intros [= <-]; by exists p'|]. by intros (p & [= ->] & ->).
  - split; [done|]. by intros (p & ? & _).
Qed.

Lemma hash_map_body_no_error target e m :
  (∀ x, hash_map_body target e m ≠ Raise x) ∧
  hash_map_body target e m ≠ OutOfFuel.
Proof.
  destruct e as [k num]. unfold hash_map_body.
  by destruct (m !! (target - num)).
Qed.

(** The dictionary binds exactly the values seen so far, each to the last
    position where it was seen. *)
Lemma scan_state_last_seen nums target k m :
  scan_state nums target k m →
  ∀ v p, m !! v = Some p ↔ last_seen nums k v p.
Proof.
  induction 1 as [|k m num m' _ IH Hnum Hbody]; intros v p.
  - rewrite lookup_empty. unfold last_seen. split; [done|]. lia.
  - apply hash_map_body_Next in Hbody as [_ ->].
    destruct (decide (num = v)) as [->|Hne].
    + rewrite lookup_insert_eq. unfold last_seen. split.
      * intros [= <-]. split_and!; [lia|done|]. lia.
      * intros (Hp & Hv & Hlast). f_equal.
        destruct (decide (p = k)) as [|Hpk]; [done|].
        destruct (Hlast k); [lia|done].
    + rewrite lookup_insert_ne by done. rewrite IH. unfold last_seen.
      split; intros (Hp & Hv & Hlast).
      * split_and!; [lia|done|]. intros p' Hp'.
        destruct (decide (p' = k)) as [->|]; [congruence|].
        apply Hlast. lia.
      * assert (p ≠ k) by congruence.
        split_and!; [lia|done|]. intros p' Hp'. apply Hlast. lia.
Qed.

Lemma last_seen_exists nums k v p :
  (p < k)%nat → nums !! p = Some v → ∃ p', last_seen nums k v p'.
Proof.
  induction k as [|k IH]; [lia|]. intros Hp Hv.
  destruct (decide (nums !! k = Some v)) as [Hk|Hk].
  - exists k. split_and!; [lia|done|]. lia.
  - destruct (decide (p = k)) as [->|]; [done|].
    destruct IH as (p' & Hp' & Hv' & Hlast); [lia|done|].
    exists p'. split_and!; [lia|done|]. intros q Hq.
    destruct (decide (q = k)) as [->|]; [done|]. apply Hlast. lia.
Qed.

(** A value is a key of the dictionary exactly when it occurs at an
    earlier position. *)
Lemma scan_state_None nums target k m v :
  scan_state nums target k m →
  m !! v = None ↔ ∀ p, (p < k)%nat → nums !! p ≠ Some v.
Proof.
  intros Hst. split.
  - intros HNone p Hp Hv.
    destruct (last_seen_exists _ _ _ _ Hp Hv) as [p' Hp'].
    apply (scan_state_last_seen _ _ _ _ Hst) in Hp'. congruence.
  - intros Hno. destruct (m !! v) as [p|] eqn:E; [|done].
    apply (scan_state_last_seen _ _ _ _ Hst) in E as (Hp & Hv & _).
    by destruct (Hno p).
Qed.

(** No pair has been missed: while the scan is still running, no two
    processed positions add up to the target. *)
Lemma scan_state_no_pair nums target k m :
  scan_state nums target k m →
  ∀ p q, (p < q < k)%nat → ¬ sums_to nums target p q.
Proof.
  induction 1 as [|k m num m' Hst IH Hnum Hbody]; intros p q Hpq Hs; [lia|].
  destruct (decide (q = k)) as [->|]; [|apply (IH p q); [lia|done]].
  apply hash_map_body_Next in Hbody as [HNone _].
  destruct Hs as (a & b & Ha & Hb & Hab).
  rewrite (scan_state_None _ _ _ _ _ Hst) in HNone.
  apply (HNone p); [lia|]. rewrite Ha. f_equal. simplify_eq. lia.
Qed.


(** The scan seen from the top of iteration [k]: it either returns at some
    later iteration [q], whose dictionary holds the complement, or runs to
    the end of the list. *)
Lemma hash_map_scan_from nums target pre rest m :
  nums = pre ++ rest →
  scan_state nums target (length pre) m →
  (∃ p q m_q num,
     for_in (enumerate (length pre) rest) (hash_map_body target) m
       = Return [p; q] ∧
     scan_state nums target q m_q ∧ nums !! q = Some num ∧
     m_q !! (target - num) = Some p) ∨
  (∃ m_end,
     for_in (enumerate (length pre) rest) (hash_map_body target) m
       = Next m_end ∧
     scan_state nums target (length nums) m_end).
Proof.
  revert pre m. induction rest as [|num rest IH]; intros pre m -> Hst.
  - right. exists m. split; [done|]. by rewrite app_nil_r in Hst |- *.
  - assert ((pre ++ num :: rest) !! length pre = Some num) as Hnum
      by (by apply list_lookup_middle).
    cbn [enumerate for_in].
    destruct (hash_map_body target (length pre, num) m) as [m'|r|e|]
      eqn:Hbody.
    + specialize (IH (pre ++ [num]) m'). rewrite length_app in IH. simpl in IH.
      rewrite Nat.add_1_r in IH. apply IH.
      * by rewrite <- app_assoc.
      * by eapply scan_step.
    + left. apply hash_map_body_Return in Hbody as (p & Hp & ->).
      by exists p, (length pre), m, num.
    + by destruct (hash_map_body_no_error target (length pre, num) m) as [H _];
        destruct (H e).
    + by destruct (hash_map_body_no_error target (length pre, num) m).
Qed.

(** The full input/output description of the hash-map strategy. *)
Lemma hash_map_spec nums target :
  (∃ p q m num,
     two_sum_hash_map nums target = Return [p; q] ∧
     scan_state nums target q m ∧ nums !! q = Some num ∧
     m !! (target - num) = Some p) ∨
  (two_sum_hash_map nums target = Return [] ∧
     ∀ i j, (i < j)%nat → ¬ sums_to nums target i j).
Proof.
  unfold two_sum_hash_map.
  destruct (hash_map_scan_from nums target [] nums ∅ eq_refl)
    as [(p & q & m & num & Hrun & Hst & Hnum & Hp)|(m & Hrun & Hst)];
    [constructor|..]; simpl in Hrun; rewrite Hrun.
  - left. by exists p, q, m, num.
  - right. split; [done|]. intros i j Hij Hs.
    apply (scan_state_no_pair _ _ _ _ Hst i j); [|done].
    destruct Hs as (a & b & _ & Hb%lookup_lt_Some & _). lia.
Qed.

(** Consequences of returning at iteration [q] with the binding [p]. *)
Lemma hash_map_hit nums target q m num p :
  scan_state nums target q m → nums !! q = Some num →
  m !! (target - num) = Some p →
  (p < q)%nat ∧ sums_to nums target p q ∧
  (∀ p' q', (p' < q')%nat → sums_to nums target p' q' → (q ≤ q')%nat) ∧
  (∀ p', (p < p' < q)%nat → ¬ sums_to nums target p' q).
Proof.
  intros Hst Hnum Hp.
  apply (scan_state_last_seen _ _ _ _ Hst) in Hp as (Hpq & Hv & Hlast).
  split_and!; [done| |..].
  - exists (target - num), num. split_and!; [done..|lia].
  - intros p' q' Hpq' Hs.
    destruct (decide (q ≤ q')%nat) as [|Hlt]; [done|].
    destruct (scan_state_no_pair _ _ _ _ Hst p' q'); [lia|done].
  - intros p' Hp' (a & b & Ha & Hb & Hab). apply (Hlast p' Hp').
    rewrite Ha. f_equal. simplify_eq. lia.
Qed.

(** ** Sorting by key *)

Section SortFacts.
Context {A : Type} (key : A → Z).

Lemma insert_by_key_perm x l : insert_by_key key x l ≡ₚ x :: l.
Proof.
  induction l as [|y l IH]; [done|]. simpl. case_bool_decide; [done|].
  rewrite IH. apply Permutation_swap.
Qed.

Lemma sort_by_key_perm l : sort_by_key key l ≡ₚ l.
Proof.
  induction l as [|x l IH]; [done|]. simpl.
  by rewrite insert_by_key_perm, IH.
Qed.

Lemma insert_by_key_sorted x l :
  StronglySorted (key_le key) l → StronglySorted (key_le key) (insert_by_key key x l).
Proof.
  induction 1 as [|y l Hl IH Hy]; simpl.
  - repeat constructor.
  - case_bool_decide as Hxy.
    + constructor; [by constructor|]. constructor; [done|].
      eapply Forall_impl; [exact Hy|]. unfold key_le. intros z ?. lia.
    + constructor; [done|]. rewrite insert_by_key_perm.
      constructor; [|done]. unfold key_le. lia.
Qed.

Lemma sort_by_key_sorted l : StronglySorted (key_le key) (sort_by_key key l).
Proof.
  induction l as [|x l IH]; simpl; [constructor|].
  by apply insert_by_key_sorted.
Qed.

Lemma sorted_lookup_le l a b x y :
  StronglySorted (key_le key) l →
  l !! a = Some x → l !! b = Some y → (a ≤ b)%nat → key x ≤ key y.
Proof.
  intros Hl. revert a b. induction Hl as [|z l Hl IH Hz]; intros a b; [done|].
  destruct a as [|a], b as [|b]; simpl; intros Ha Hb Hab.
  - simplify_eq. lia.
  - simplify_eq. rewrite Forall_forall in Hz. apply Hz.
    by eapply list_elem_of_lookup_2.
  - lia.
  - apply (IH a b); [done..|lia].
Qed.

(** Stability: elements with equal keys keep their relative order. *)
Lemma insert_by_key_filter x l k :
  StronglySorted (key_le key) l →
  filter (λ y, key y = k) (insert_by_key key x l) =
  filter (λ y, key y = k) (x :: l).
Proof.
  induction 1 as [|y l Hl IH Hy]; [done|]. simpl.
  case_bool_decide as Hxy; [done|].
  rewrite filter_cons, IH, !filter_cons.
  destruct (decide (key y = k)) as [Hyk|Hyk];
    destruct (decide (key x = k)) as [Hxk|Hxk]; try done. lia.
Qed.

Lemma sort_by_key_stable l k :
  filter (λ y, key y = k) (sort_by_key key l) = filter (λ y, key y = k) l.
Proof.
  induction l as [|x l IH]; [done|]. simpl.
  rewrite insert_by_key_filter by apply sort_by_key_sorted.
  by rewrite !filter_cons, IH.
Qed.
(** A stable sort is determined by its input: two lists sorted by key that
    hold, for every key, the same elements in the same order are equal.  So
    every stable sorting procedure computes [sort_by_key]. *)
Lemma stable_sorted_unique l1 l2 :
  StronglySorted (key_le key) l1 → StronglySorted (key_le key) l2 →
  (∀ k, filter (λ y, key y = k) l1 = filter (λ y, key y = k) l2) →
  l1 = l2.
Proof.
  intros Hl1. revert l2.
  induction Hl1 as [|x l1 Hl1 IH Hx]; intros l2 Hl2 Hfilter.
  - destruct l2 as [|y l2]; [done|].
    specialize (Hfilter (key y)). rewrite filter_cons_True in Hfilter by done.
    done.
  - destruct Hl2 as [|y l2 Hl2 Hy].
    { specialize (Hfilter (key x)).
      rewrite filter_cons_True in Hfilter by done. done. }
    assert (key x = key y) as Hxy.
    { apply Z.le_antisymm.
      - assert (y ∈ x :: l1) as [->|Hin]%elem_of_cons; [|lia|].
        + eapply (list_elem_of_filter (λ z, key z = key y)).
          rewrite (Hfilter (key y)), filter_cons_True by done. left.
        + rewrite Forall_forall in Hx. by apply Hx.
      - assert (x ∈ y :: l2) as [->|Hin]%elem_of_cons; [|lia|].
        + eapply (list_elem_of_filter (λ z, key z = key x)).
          rewrite <- (Hfilter (key x)), filter_cons_True by done. left.
        + rewrite Forall_forall in Hy. by apply Hy. }
    assert (x = y) as ->.
    { specialize (Hfilter (key x)).
      rewrite !filter_cons_True in Hfilter by done. congruence. }
    f_equal. apply IH; [done|]. intros k. specialize (Hfilter k).
    rewrite !filter_cons in Hfilter.
    destruct (decide (key y = k)); congruence.
Qed.

Lemma sort_by_key_unique l l' :
  StronglySorted (key_le key) l' →
  (∀ k, filter (λ y, key y = k) l' = filter (λ y, key y = k) l) →
  l' = sort_by_key key l.
Proof.
  intros Hsorted Hstable. apply stable_sorted_unique; [done|..].
  - apply sort_by_key_sorted.
  - intros k. by rewrite sort_by_key_stable.
Qed.
End SortFacts.

(** ** The indexed, sorted copy *)

Lemma lookup_enumerate {A} (l : list A) start k :
  enumerate start l !! k = (λ x, ((start + k)%nat, x)) <$> l !! k.
Proof.
  revert start k. induction l as [|x l IH]; intros start [|k]; simpl; try done.
  - by rewrite Nat.add_0_r.
  - rewrite IH. by replace (S start + k)%nat with (start + S k)%nat by lia.
Qed.

Lemma length_enumerate {A} (l : list A) start :
  length (enumerate start l) = length l.
Proof. revert start. induction l; intros; simpl; by f_equal. Qed.

Lemma lookup_indexed nums k : indexed nums !! k = (λ v, (v, k)) <$> nums !! k.
Proof.
  unfold indexed. rewrite list_lookup_fmap, lookup_enumerate.
  by destruct (nums !! k).
Qed.

Lemma elem_of_indexed nums v i : (v, i) ∈ indexed nums ↔ nums !! i = Some v.
Proof.
  rewrite list_elem_of_lookup. setoid_rewrite lookup_indexed. split.
  - intros (k & Hk). destruct (nums !! k) eqn:E; by simplify_eq/=.
  - intros Hi. exists i. by rewrite Hi.
Qed.

Lemma NoDup_indexed_snd nums : NoDup (indexed nums).*2.
Proof.
  apply NoDup_alt. intros a b i. rewrite !list_lookup_fmap, !lookup_indexed.
  destruct (nums !! a), (nums !! b); naive_solver.
Qed.

Lemma indexed_sorted_perm nums : indexed_sorted nums ≡ₚ indexed nums.
Proof. apply sort_by_key_perm. Qed.

Lemma length_indexed_sorted nums : length (indexed_sorted nums) = length nums.
Proof.
  rewrite indexed_sorted_perm. unfold indexed.
  by rewrite length_fmap, length_enumerate.
Qed.

Lemma elem_of_indexed_sorted nums v i :
  (v, i) ∈ indexed_sorted nums ↔ nums !! i = Some v.
Proof. rewrite indexed_sorted_perm. apply elem_of_indexed. Qed.

Lemma indexed_sorted_lookup nums a x :
  indexed_sorted nums !! a = Some x → nums !! x.2 = Some x.1.
Proof.
  intros Ha%list_elem_of_lookup_2. destruct x as [v i].
  by apply elem_of_indexed_sorted.
Qed.

Lemma indexed_sorted_distinct nums a b x y :
  indexed_sorted nums !! a = Some x → indexed_sorted nums !! b = Some y →
  a ≠ b → x.2 ≠ y.2.
Proof.
  intros Ha Hb Hab Heq. apply Hab.
  apply (NoDup_lookup ((indexed_sorted nums).*2) a b x.2).
  - rewrite indexed_sorted_perm. apply NoDup_indexed_snd.
  - by rewrite list_lookup_fmap, Ha.
  - by rewrite list_lookup_fmap, Hb, Heq.
Qed.

Lemma indexed_sorted_le nums a b x y :
  indexed_sorted nums !! a = Some x → indexed_sorted nums !! b = Some y →
  (a ≤ b)%nat → x.1 ≤ y.1.
Proof. apply (sorted_lookup_le fst), sort_by_key_sorted. Qed.

(** ** A Hoare-style rule for the fuel-bounded loop *)

Lemma while_rule {S} (I : S → Prop) (Q : list nat → Prop) (measure : S → nat)
    (cond : S → bool) (body : S → flow S) :
  (∀ s, I s → cond s = true →
     (0 < measure s)%nat ∧
     match body s with
     | Next s' => I s' ∧ (measure s' < measure s)%nat
     | Return r => Q r
     | _ => False
     end) →
  ∀ fuel s, I s → (measure s ≤ fuel)%nat →
    match while fuel cond body s with
    | Next s' => I s' ∧ cond s' = false
    | Return r => Q r
    | _ => False
    end.
Proof.
  intros Hbody. induction fuel as [|fuel IH]; intros s HI Hm; simpl.
  - destruct (cond s) eqn:Hc; [|done].
    destruct (Hbody s HI Hc) as [? _]. lia.
  - destruct (cond s) eqn:Hc; [|done].
    destruct (Hbody s HI Hc) as [_ Hb].
    destruct (body s) as [s'|r|e|]; [|done..].
    destruct Hb as [HI' Hm']. apply IH; [done|lia].
Qed.

(** Once the loop finishes within its fuel, more fuel changes nothing. *)
Lemma while_more_fuel {S} (cond : S → bool) (body : S → flow S) fuel fuel' s :
  while fuel cond body s ≠ OutOfFuel → (fuel ≤ fuel')%nat →
  while fuel' cond body s = while fuel cond body s.
Proof.
  revert fuel' s. induction fuel as [|fuel IH]; intros fuel' s Hne Hle.
  - simpl in *. destruct (cond s) eqn:Hc; [done|].
    destruct fuel'; simpl; by rewrite Hc.
  - destruct fuel' as [|fuel']; [lia|]. simpl in *.
    destruct (cond s); [|done].
    destruct (body s); [|done..]. apply IH; [done|lia].
Qed.

(** ** Two pointers *)

Lemma two_pointers_body_step nums target s :
  two_pointers_inv nums target s → two_pointers_cond s = true →
  (0 < two_pointers_gap s)%nat ∧
  match two_pointers_body (indexed_sorted nums) target s with
  | Next s' =>
      two_pointers_inv nums target s' ∧
      (two_pointers_gap s' < two_pointers_gap s)%nat
  | Return r => two_pointers_post nums target r
  | _ => False
  end.
Proof.
  destruct s as [left right]. unfold two_pointers_inv, two_pointers_cond,
    two_pointers_gap, two_pointers_body. simpl.
  intros (Hl & Hr & Hpairs) Hlt%bool_decide_eq_true.
  split; [lia|].
  rewrite !getitem_nonneg by lia.
  destruct (lookup_lt_is_Some_2 (indexed_sorted nums) (Z.to_nat left))
    as [l Hleft]; [rewrite length_indexed_sorted; lia|].
  destruct (lookup_lt_is_Some_2 (indexed_sorted nums) (Z.to_nat right))
    as [r Hright]; [rewrite length_indexed_sorted; lia|].
  rewrite Hleft, Hright. simpl.
  case_bool_decide as Heq; [|case_bool_decide as Hsmall]; simpl.
  - exists (Z.to_nat left), (Z.to_nat right), l, r.
    split_and!; [lia|done..].
  - split; [|lia]. split_and!; [lia..|].
    intros a b x y Hab Ha Hb Hsum.
    destruct (Hpairs a b x y Hab Ha Hb Hsum) as [Hla Hbr].
    split; [|done].
    destruct (decide (Z.of_nat a = left)) as [Hal|]; [|lia].
    assert (y.1 ≤ r.1)
      by (apply (indexed_sorted_le nums b (Z.to_nat right)); [done..|lia]).
    assert (x = l) by (rewrite <- Hal, Nat2Z.id in Hleft; congruence).
    subst x. lia.
  - split; [|lia]. split_and!; [lia..|].
    intros a b x y Hab Ha Hb Hsum.
    destruct (Hpairs a b x y Hab Ha Hb Hsum) as [Hla Hbr].
    split; [done|].
    destruct (decide (Z.of_nat b = right)) as [Hbr'|]; [|lia].
    assert (l.1 ≤ x.1)
      by (apply (indexed_sorted_le nums (Z.to_nat left) a); [done..|lia]).
    assert (y = r) by (rewrite <- Hbr', Nat2Z.id in Hright; congruence).
    subst y. lia.
Qed.

Lemma two_pointers_inv_init nums target :
  two_pointers_inv nums target (0, Z.of_nat (len (indexed_sorted nums)) - 1).
Proof.
  unfold two_pointers_inv, len. rewrite length_indexed_sorted. simpl.
  split_and!; [lia..|]. intros a b x y Hab _ Hb%lookup_lt_Some _.
  rewrite length_indexed_sorted in Hb. lia.
Qed.

(** The loop with at least [len(nums)] units of fuel. *)
Lemma two_pointers_loop nums target fuel :
  (length nums ≤ fuel)%nat →
  match while fuel two_pointers_cond
          (two_pointers_body (indexed_sorted nums) target)
          (0, Z.of_nat (len (indexed_sorted nums)) - 1) with
  | Next s' => two_pointers_inv nums target s' ∧ two_pointers_cond s' = false
  | Return r => two_pointers_post nums target r
  | _ => False
  end.
Proof.
  intros Hfuel.
  apply (while_rule (two_pointers_inv nums target)
           (two_pointers_post nums target) two_pointers_gap).
  - apply two_pointers_body_step.
  - apply two_pointers_inv_init.
  - unfold two_pointers_gap, len. rewrite length_indexed_sorted. simpl. lia.
Qed.

Lemma two_pointers_post_sound nums target r :
  two_pointers_post nums target r →
  ∃ i j, r = [i; j] ∧ i ≠ j ∧ sums_to nums target i j.
Proof.
  intros (a & b & x & y & Hab & Ha & Hb & Hsum & ->).
  exists x.2, y.2. split_and!; [done| |].
  - apply (indexed_sorted_distinct nums a b); [done..|lia].
  - exists x.1, y.1. split_and!; [by eapply indexed_sorted_lookup..|done].
Qed.

(** A pair of distinct original positions is a pair of sorted positions. *)
Lemma sums_to_sorted_positions nums target i j :
  i ≠ j → sums_to nums target i j →
  ∃ a b x y, (a < b)%nat ∧
    indexed_sorted nums !! a = Some x ∧ indexed_sorted nums !! b = Some y ∧
    x.1 + y.1 = target.
Proof.
  intros Hij (u & v & Hi & Hj & Hsum).
  apply elem_of_indexed_sorted, list_elem_of_lookup in Hi as [a Ha].
  apply elem_of_indexed_sorted, list_elem_of_lookup in Hj as [b Hb].
  assert (a ≠ b) by (intros ->; congruence).
  destruct (decide (a < b)%nat).
  - exists a, b, (u, i), (v, j). by split_and!.
  - exists b, a, (v, j), (u, i). split_and!; [lia|done..|simpl; lia].
Qed.

(** The full input/output description of the two-pointer strategy, for any
    sufficient amount of fuel. *)
Lemma two_pointers_fuel_spec nums target fuel :
  (length nums ≤ fuel)%nat →
  (∃ i j, two_sum_two_pointers_fuel fuel nums target = Return [i; j] ∧
     i ≠ j ∧ sums_to nums target i j) ∨
  (two_sum_two_pointers_fuel fuel nums target = Return [] ∧
     ∀ i j, i ≠ j → ¬ sums_to nums target i j).
Proof.
  intros Hfuel. unfold two_sum_two_pointers_fuel.
  pose proof (two_pointers_loop nums target fuel Hfuel) as Hloop.
  destruct (while _ _ _ _) as [[left right]|r|e|]; [| |done..].
  - right. split; [done|]. intros i j Hij Hs.
    destruct Hloop as [(_ & _ & Hpairs) Hc%bool_decide_eq_false].
    destruct (sums_to_sorted_positions _ _ _ _ Hij Hs)
      as (a & b & x & y & Hab & Ha & Hb & Hsum).
    destruct (Hpairs a b x y Hab Ha Hb Hsum). simpl in *. lia.
  - left. destruct (two_pointers_post_sound _ _ _ Hloop) as (i & j & -> & ?).
    by exists i, j.
Qed.

Lemma two_pointers_fuel_enough nums target fuel :
  (length nums ≤ fuel)%nat →
  two_sum_two_pointers_fuel fuel nums target = two_sum_two_pointers nums target.
Proof.
  intros Hfuel. unfold two_sum_two_pointers, two_sum_two_pointers_fuel.
  rewrite (while_more_fuel _ _ (len nums) fuel); [done| |done].
  pose proof (two_pointers_loop nums target (len nums) (reflexivity _)).
  by destruct (while _ _ _ _).
Qed.

Lemma two_pointers_spec nums target :
  (∃ i j, two_sum_two_pointers nums target = Return [i; j] ∧
     i ≠ j ∧ sums_to nums target i j) ∨
  (two_sum_two_pointers nums target = Return [] ∧
     ∀ i j, i ≠ j → ¬ sums_to nums target i j).
Proof. by apply two_pointers_fuel_spec. Qed.

(** ** The store-level functions refine the value-level ones *)

Lemma for_in_at_pure {X S} (xs : list X) (body_at : X → S → run S)
    (body : X → S → flow S) (h : gmap loc pyobj) s :
  (∀ x s, x ∈ xs → body_at x s h = (body x s, h)) →
  for_in_at xs body_at s h = (for_in xs body s, h).
Proof.
  revert s. induction xs as [|x xs IH]; intros s Hbody; [done|].
  cbn [for_in_at for_in]. unfold mbind, run_mbind, run_bind.
  rewrite Hbody by left.
  destruct (body x s); [|done..].
  apply IH. intros y s' Hy. apply Hbody. by right.
Qed.

Lemma while_at_pure {S} fuel (cond : S → bool) (body_at : S → run S)
    (body : S → flow S) (h : gmap loc pyobj) s :
  (∀ s, body_at s h = (body s, h)) →
  while_at fuel cond body_at s h = (while fuel cond body s, h).
Proof.
  intros Hbody. revert s. induction fuel as [|fuel IH]; intros s; simpl.
  - unfold lift. by destruct (cond s).
  - destruct (cond s); [|done]. unfold mbind, run_mbind, run_bind.
    rewrite Hbody. by destruct (body s).
Qed.

Section Refinement.
Context (h : gmap loc pyobj) (nums : loc) (xs : list Z) (target : Z).
Hypothesis Hnums : h !! nums = Some (PyList xs).

Lemma len_at_nums : len_at nums h = (Next (len xs), h).
Proof.
  unfold len_at, mbind, run_mbind, run_bind, read_list. by rewrite Hnums.
Qed.

Lemma getitem_at_nums k : getitem_at nums k h = (getitem xs k, h).
Proof.
  unfold getitem_at, mbind, run_mbind, run_bind, read_list, lift.
  by rewrite Hnums.
Qed.

Lemma brute_force_at_pure :
  two_sum_brute_force_at nums target h = (two_sum_brute_force xs target, h).
Proof.
  unfold two_sum_brute_force_at, two_sum_brute_force.
  unfold mbind at 1 2. unfold run_mbind, run_bind. rewrite len_at_nums.
  rewrite (for_in_at_pure _ _
    (λ i _, for_in (range (i + 1) (len xs))
              (λ j _, brute_force_test xs target i j) ())).
  { by destruct (for_in _ _ _). }
  intros i [] _. unfold mbind at 1. unfold run_mbind, run_bind.
  rewrite len_at_nums. apply for_in_at_pure. intros j [] _.
  unfold brute_force_test, mbind, run_mbind, run_bind, flow_mbind, flow_bind.
  rewrite !getitem_at_nums.
  destruct (getitem xs (Z.of_nat i)); [|done..].
  by destruct (getitem xs (Z.of_nat j)).
Qed.

(** One iteration of the scan: the only object that can change is the
    dictionary at [d]. *)
Lemma hash_map_body_at_step d i num m (h' : gmap loc pyobj) :
  h' !! nums = Some (PyList xs) → xs !! i = Some num →
  h' !! d = Some (PyDict m) →
  hash_map_body_at nums d target i () h' =
    match hash_map_body target (i, num) m with
    | Next m' => (Next (), <[d := PyDict m']> h')
    | c => (void c, h')
    end.
Proof.
  intros Hnums' Hi Hd.
  unfold hash_map_body_at, getitem_at, dict_lookup_at, dict_assign_at,
    read_list, read_dict, write, lift, mbind, run_mbind, run_bind.
  rewrite Hnums', getitem_nat, Hi, Hd. unfold hash_map_body.
  destruct (m !! (target - num)); [done|]. by rewrite Hd.
Qed.

Lemma hash_map_at_loop d rest pre m (h' : gmap loc pyobj) :
  xs = pre ++ rest →
  h' !! nums = Some (PyList xs) → d ≠ nums → h' !! d = Some (PyDict m) →
  ∃ m',
    for_in_at (seq (length pre) (length rest))
      (hash_map_body_at nums d target) () h' =
    (void (for_in (enumerate (length pre) rest) (hash_map_body target) m),
     <[d := PyDict m']> h').
Proof.
  revert pre m h'. induction rest as [|num rest IH];
    intros pre m h' Hxs Hnums' Hd Hdict.
  - exists m. simpl. unfold lift. by rewrite insert_id.
  - cbn [length seq for_in_at enumerate for_in].
    unfold mbind, run_mbind, run_bind.
    rewrite (hash_map_body_at_step d (length pre) num m) by
      (try done; rewrite Hxs; by apply list_lookup_middle).
    destruct (hash_map_body target (length pre, num) m) as [m1|r|e|]
      eqn:Hbody; try (exists m; simpl; by rewrite insert_id).
    destruct (IH (pre ++ [num]) m1 (<[d := PyDict m1]> h')) as [m' Hm'].
    + by rewrite <- app_assoc.
    + by rewrite lookup_insert_ne.
    + done.
    + by rewrite lookup_insert_eq.
    + exists m'. rewrite length_app, Nat.add_1_r in Hm'.
      rewrite Hm'. by rewrite insert_insert_eq.
Qed.

Lemma hash_map_at_pure :
  ∃ m, two_sum_hash_map_at nums target h =
         (two_sum_hash_map xs target, <[fresh (dom h) := PyDict m]> h).
Proof.
  set (d := fresh (dom h)).
  assert (h !! d = None) as Hfresh by apply not_elem_of_dom, is_fresh.
  assert (d ≠ nums) as Hd by (intros ->; congruence).
  destruct (hash_map_at_loop d xs [] ∅ (<[d := PyDict ∅]> h))
    as [m Hm]; [done|by rewrite lookup_insert_ne|done|
                by rewrite lookup_insert_eq|].
  exists m. unfold two_sum_hash_map_at, two_sum_hash_map.
  unfold mbind at 1 2 3. unfold run_mbind, run_bind, alloc. fold d.
  unfold len_at, read_list, mbind, run_mbind, run_bind, lift.
  rewrite lookup_insert_ne, Hnums by done.
  unfold range, len. rewrite Nat.sub_0_r.
  simpl in Hm. rewrite Hm, insert_insert_eq.
  unfold flow_mbind, flow_bind. by destruct (for_in _ _ _).
Qed.

Lemma two_pointers_body_at_pure d s (h' : gmap loc pyobj) :
  h' !! d = Some (PyPairs (indexed_sorted xs)) →
  two_pointers_body_at d target s h' =
    (two_pointers_body (indexed_sorted xs) target s, h').
Proof.
  intros Hd. unfold two_pointers_body_at, two_pointers_body,
    getitem_pairs_at, read_pairs, lift, mbind, run_mbind, run_bind,
    flow_mbind, flow_bind.
  rewrite Hd.
  destruct (getitem (indexed_sorted xs) s.1); [|done..].
  rewrite Hd. by destruct (getitem (indexed_sorted xs) s.2).
Qed.

Lemma two_pointers_at_pure :
  two_sum_two_pointers_at nums target h =
    (two_sum_two_pointers xs target,
     <[fresh (dom h) := PyPairs (indexed_sorted xs)]> h).
Proof.
  set (d := fresh (dom h)).
  unfold two_sum_two_pointers_at, two_sum_two_pointers,
    two_sum_two_pointers_fuel.
  unfold mbind at 1 2 3 4 5. unfold run_mbind, run_bind, read_list.
  rewrite Hnums. unfold alloc. fold d.
  unfold sort_at, read_pairs, write, mbind, run_mbind, run_bind.
  rewrite lookup_insert_eq, insert_insert_eq.
  unfold len_pairs_at, read_pairs, mbind, run_mbind, run_bind, lift.
  rewrite lookup_insert_eq.
  fold (indexed xs). fold (indexed_sorted xs).
  rewrite (while_at_pure _ _ _
             (two_pointers_body (indexed_sorted xs) target)).
  { unfold flow_mbind, flow_bind. by destruct (while _ _ _ _). }
  intros s. apply two_pointers_body_at_pure. by rewrite lookup_insert_eq.
Qed.
End Refinement.

(** ** The scan states are the states of the loop *)

Lemma for_in_app {X S} (xs ys : list X) (body : X → S → flow S) s :
  for_in (xs ++ ys) body s =
    match for_in xs body s with
    | Next s' => for_in ys body s'
    | c => c
    end.
Proof.
  revert s. induction xs as [|x xs IH]; intros s; [done|].
  simpl. by destruct (body x s).
Qed.

Lemma enumerate_app {A} start (l1 l2 : list A) :
  enumerate start (l1 ++ l2) =
    enumerate start l1 ++ enumerate (start + length l1) l2.
Proof.
  revert start. induction l1 as [|x l1 IH]; intros start; simpl.
  - by rewrite Nat.add_0_r.
  - rewrite IH. by replace (S start + length l1)%nat
      with (start + S (length l1))%nat by lia.
Qed.

Lemma scan_prefix_step nums target k num :
  nums !! k = Some num →
  for_in (enumerate 0 (take (S k) nums)) (hash_map_body target) ∅ =
    match for_in (enumerate 0 (take k nums)) (hash_map_body target) ∅ with
    | Next m => for_in [(k, num)] (hash_map_body target) m
    | c => c
    end.
Proof.
  intros Hk. rewrite (take_S_r _ _ _ Hk), enumerate_app, for_in_app.
  rewrite length_take_le by (apply lookup_lt_Some in Hk; lia). done.
Qed.

(** [scan_state] holds exactly of the dictionaries the loop produces on the
    prefixes of the input. *)
Lemma scan_state_for_in nums target k m :
  scan_state nums target k m ↔
  (k ≤ length nums)%nat ∧
  for_in (enumerate 0 (take k nums)) (hash_map_body target) ∅ = Next m.
Proof.
  split.
  - induction 1 as [|k m num m' Hst [_ IH] Hnum Hbody].
    + split; [lia|done].
    + split; [apply lookup_lt_Some in Hnum; lia|].
      rewrite (scan_prefix_step _ _ _ _ Hnum), IH. cbn [for_in]. by rewrite Hbody.
  - revert m. induction k as [|k IH]; intros m [Hk Hrun].
    + simpl in Hrun. injection Hrun as <-. constructor.
    + destruct (lookup_lt_is_Some_2 nums k) as [num Hnum]; [lia|].
      rewrite (scan_prefix_step _ _ _ _ Hnum) in Hrun.
      destruct (for_in (enumerate 0 (take k nums)) _ _) as [m0| | |] eqn:E;
        [|done..].
      apply (scan_step _ _ k m0 num); [apply IH; split; [lia|done]|done|].
      cbn [for_in] in Hrun. by destruct (hash_map_body target (k, num) m0).
Qed.

Lemma scan_state_det nums target k m1 m2 :
  scan_state nums target k m1 → scan_state nums target k m2 → m1 = m2.
Proof.
  intros [_ H1]%scan_state_for_in [_ H2]%scan_state_for_in. congruence.
Qed.

Lemma sums_to_sym nums target i j :
  sums_to nums target i j → sums_to nums target j i.
Proof. intros (a & b & Ha & Hb & Hab). exists b, a. split_and!; [done..|lia]. Qed.

Lemma sums_to_lt nums target i j :
  sums_to nums target i j → (i < length nums)%nat ∧ (j < length nums)%nat.
Proof. intros (a & b & Ha%lookup_lt_Some & Hb%lookup_lt_Some & _). done. Qed.

Lemma no_ordered_pair_no_pair nums target :
  (∀ i j, (i < j)%nat → ¬ sums_to nums target i j) →
  ∀ i j, i ≠ j → ¬ sums_to nums target i j.
Proof.
  intros Hno i j Hij Hs. destruct (decide (i < j)%nat).
  - by apply (Hno i j).
  - apply (Hno j i); [lia|by apply sums_to_sym].
Qed.

Lemma brute_force_contract nums target :
  finder_contract nums target (two_sum_brute_force nums target).
Proof.
  destruct (brute_force_spec nums target)
    as [(i & j & Hr & Hij & Hs & _)|[Hr Hno]].
  - left. exists i, j. split_and!; [done|lia|done].
  - right. split; [done|]. by apply no_ordered_pair_no_pair.
Qed.

Lemma hash_map_contract nums target :
  finder_contract nums target (two_sum_hash_map nums target).
Proof.
  destruct (hash_map_spec nums target)
    as [(p & q & m & num & Hr & Hst & Hnum & Hp)|[Hr Hno]].
  - left. exists p, q.
    destruct (hash_map_hit _ _ _ _ _ _ Hst Hnum Hp) as (Hpq & Hs & _).
    split_and!; [done|lia|done].
  - right. split; [done|]. by apply no_ordered_pair_no_pair.
Qed.

Lemma two_pointers_contract nums target :
  finder_contract nums target (two_sum_two_pointers nums target).
Proof. apply two_pointers_spec. Qed.

Lemma finder_contract_returns nums target result :
  finder_contract nums target result → ∃ r, result = Return r.
Proof. intros [(i & j & -> & _)|[-> _]]; eauto. Qed.

Lemma finder_contract_sound nums target result r :
  finder_contract nums target result → result = Return r → r ≠ [] →
  ∃ i j, r = [i; j] ∧ i ≠ j ∧ sums_to nums target i j.
Proof.
  intros [(i & j & -> & Hij & Hs)|[-> _]] [= <-] Hne; [|done].
  by exists i, j.
Qed.

Lemma finder_contract_complete nums target result :
  finder_contract nums target result → result = Return [] →
  ∀ i j, i ≠ j → ¬ sums_to nums target i j.
Proof. intros [(i & j & -> & _)|[_ Hno]] Hr; [done|exact Hno]. Qed.

Lemma finder_contract_found nums target result i j :
  finder_contract nums target result → i ≠ j → sums_to nums target i j →
  ∃ i' j', result = Return [i'; j'] ∧ i' ≠ j' ∧ sums_to nums target i' j'.
Proof.
  intros [Hfound|[_ Hno]] Hij Hs; [done|]. by destruct (Hno i j).
Qed.

(** ** The driver's test cases *)

(** The four inputs of the [__main__] block with the results its comments
    expect, for each strategy. *)
Example driver_brute_force :
  two_sum_brute_force [2; 7; 11; 15] 9 = Return [0; 1]%nat ∧
  two_sum_brute_force [3; 2; 4] 6 = Return [1; 2]%nat ∧
  two_sum_brute_force [3; 3] 6 = Return [0; 1]%nat ∧
  two_sum_brute_force [1; 2; 3; 4] 7 = Return [2; 3]%nat.
Proof. by split_and!. Qed.

Example driver_hash_map :
  two_sum_hash_map [2; 7; 11; 15] 9 = Return [0; 1]%nat ∧
  two_sum_hash_map [3; 2; 4] 6 = Return [1; 2]%nat ∧
  two_sum_hash_map [3; 3] 6 = Return [0; 1]%nat ∧
  two_sum_hash_map [1; 2; 3; 4] 7 = Return [2; 3]%nat.
Proof. split_and!; vm_compute; reflexivity. Qed.

Example driver_two_pointers :
  two_sum_two_pointers [2; 7; 11; 15] 9 = Return [0; 1]%nat ∧
  two_sum_two_pointers [3; 2; 4] 6 = Return [1; 2]%nat ∧
  two_sum_two_pointers [3; 3] 6 = Return [0; 1]%nat ∧
  two_sum_two_pointers [1; 2; 3; 4] 7 = Return [2; 3]%nat.
Proof. split_and!; vm_compute; reflexivity. Qed.

(** With several solutions the strategies may disagree on the pair. *)
Example several_solutions :
  two_sum_brute_force [1; 2; 3; 4; 5] 6 = Return [0; 4]%nat ∧
  two_sum_hash_map [1; 2; 3; 4; 5] 6 = Return [1; 3]%nat ∧
  two_sum_two_pointers [1; 2; 3; 4; 5] 6 = Return [0; 4]%nat.
Proof. split_and!; vm_compute; reflexivity. Qed.

(** ** The claims *)

(** C1 (soundness of every variant).  Whenever [two_sum_brute_force],
    [two_sum_hash_map] or [two_sum_two_pointers] returns a non-empty list, the
    list is a pair [[i; j]] of two different positions of the original input,
    both in range, whose values add up to [target]. *)
Theorem C1_soundness (nums : list Z) (target : Z) (r : list nat) :
  two_sum_brute_force nums target = Return r ∨
  two_sum_hash_map nums target = Return r ∨
  two_sum_two_pointers nums target = Return r →
  r ≠ [] →
  ∃ i j a b, r = [i; j] ∧ i ≠ j ∧
    (i < length nums)%nat ∧ (j < length nums)%nat ∧
    nums !! i = Some a ∧ nums !! j = Some b ∧ a + b = target.
Proof.
  intros Hr Hne.
  assert (∃ i j, r = [i; j] ∧ i ≠ j ∧ sums_to nums target i j)
    as (i & j & -> & Hij & Hs).
  { destruct Hr as [Hr|[Hr|Hr]].
    - exact (finder_contract_sound _ _ _ _
               (brute_force_contract nums target) Hr Hne).
    - exact (finder_contract_sound _ _ _ _
               (hash_map_contract nums target) Hr Hne).
    - exact (finder_contract_sound _ _ _ _
               (two_pointers_contract nums target) Hr Hne). }
  destruct (sums_to_lt _ _ _ _ Hs) as [Hi Hj].
  destruct Hs as (a & b & Ha & Hb & Hab). by exists i, j, a, b.
Qed.

Lemma C1_soundness_witness :
  ∃ i j a b, [1; 2]%nat = [i; j] ∧ i ≠ j ∧
    (i < length [3; 2; 4])%nat ∧ (j < length [3; 2; 4])%nat ∧
    [3; 2; 4] !! i = Some a ∧ [3; 2; 4] !! j = Some b ∧ a + b = 6.
Proof.
  apply (C1_soundness [3; 2; 4] 6 [1; 2]%nat).
  - right. right. vm_compute. reflexivity.
  - discriminate.
Defined.

(** C2 (completeness of every variant).  Whenever one of the three variants
    returns the empty marker, no two different positions of the input hold
    values adding up to [target]; and an input of length 0 or 1 makes all
    three return the empty marker. *)
Theorem C2_completeness (nums : list Z) (target : Z) :
  (two_sum_brute_force nums target = Return [] ∨
   two_sum_hash_map nums target = Return [] ∨
   two_sum_two_pointers nums target = Return [] →
   ∀ i j a b, i ≠ j → nums !! i = Some a → nums !! j = Some b →
     a + b ≠ target) ∧
  ((length nums ≤ 1)%nat →
   two_sum_brute_force nums target = Return [] ∧
   two_sum_hash_map nums target = Return [] ∧
   two_sum_two_pointers nums target = Return []).
Proof.
  split.
  - intros Hr i j a b Hij Ha Hb Hab.
    assert (∀ i j, i ≠ j → ¬ sums_to nums target i j) as Hno.
    { destruct Hr as [Hr|[Hr|Hr]].
      - exact (finder_contract_complete _ _ _
                 (brute_force_contract nums target) Hr).
      - exact (finder_contract_complete _ _ _
                 (hash_map_contract nums target) Hr).
      - exact (finder_contract_complete _ _ _
                 (two_pointers_contract nums target) Hr). }
    apply (Hno i j Hij). by exists a, b.
  - intros Hlen.
    assert (∀ result, finder_contract nums target result →
              result = Return []) as Hshort.
    { intros result [(i & j & _ & Hij & [Hi Hj]%sums_to_lt)|[-> _]];
        [lia|done]. }
    split_and!; apply Hshort;
      auto using brute_force_contract, hash_map_contract,
        two_pointers_contract.
Qed.

Lemma C2_completeness_witness :
  (∀ i j a b, i ≠ j → [1; 2; 3] !! i = Some a → [1; 2; 3] !! j = Some b →
     a + b ≠ 10) ∧
  (two_sum_brute_force [5] 10 = Return [] ∧
   two_sum_hash_map [5] 10 = Return [] ∧
   two_sum_two_pointers [5] 10 = Return []).
Proof.
  split.
  - apply (proj1 (C2_completeness [1; 2; 3] 10)).
    right. left. vm_compute. reflexivity.
  - apply (proj2 (C2_completeness [5] 10)). simpl. lia.
Defined.

(** C7 (scan order of the brute force).  When some pair of different
    positions adds up to [target], [two_sum_brute_force] returns the pair
    [(i, j)], [i < j], that is least in the lexicographic order among the
    pairs adding up to [target]: the first one met with [i] increasing,
    then [j] increasing. *)
Theorem C7_brute_force_least (nums : list Z) (target : Z) :
  (∃ i j, i ≠ j ∧ sums_to nums target i j) →
  ∃ i j, two_sum_brute_force nums target = Return [i; j] ∧
    (i < j)%nat ∧ sums_to nums target i j ∧
    ∀ i' j', (i' < j')%nat → sums_to nums target i' j' →
      (i < i')%nat ∨ (i = i' ∧ (j ≤ j')%nat).
Proof.
  intros (i0 & j0 & Hij0 & Hs0).
  destruct (brute_force_spec nums target)
    as [(i & j & Hr & Hij & Hs & Hleast)|[_ Hno]].
  - by exists i, j.
  - by destruct (no_ordered_pair_no_pair _ _ Hno i0 j0).
Qed.

Lemma C7_brute_force_least_witness :
  ∃ i j, two_sum_brute_force [1; 2; 3; 4; 5] 6 = Return [i; j] ∧
    (i < j)%nat ∧ sums_to [1; 2; 3; 4; 5] 6 i j ∧
    ∀ i' j', (i' < j')%nat → sums_to [1; 2; 3; 4; 5] 6 i' j' →
      (i < i')%nat ∨ (i = i' ∧ (j ≤ j')%nat).
Proof.
  apply (C7_brute_force_least [1; 2; 3; 4; 5] 6).
  exists 1%nat, 3%nat. split; [lia|]. exists 2, 4. by split_and!.
Defined.

(** C10 (the second index of the hash-map scan is minimal).  When some pair
    of different positions adds up to [target], [two_sum_hash_map] returns
    [[p; q]] where [q] is the least position that has an earlier partner:
    [p < q], the two values add up to [target], and every pair
    [p' < q'] adding up to [target] has [q <= q']. *)
Theorem C10_hash_map_second_index_least (nums : list Z) (target : Z) :
  (∃ i j, i ≠ j ∧ sums_to nums target i j) →
  ∃ p q, two_sum_hash_map nums target = Return [p; q] ∧
    (p < q)%nat ∧ sums_to nums target p q ∧
    ∀ p' q', (p' < q')%nat → sums_to nums target p' q' → (q ≤ q')%nat.
Proof.
  intros (i0 & j0 & Hij0 & Hs0).
  destruct (hash_map_spec nums target)
    as [(p & q & m & num & Hr & Hst & Hnum & Hp)|[_ Hno]].
  - exists p, q.
    destruct (hash_map_hit _ _ _ _ _ _ Hst Hnum Hp) as (Hpq & Hs & Hmin & _).
    by split_and!.
  - by destruct (no_ordered_pair_no_pair _ _ Hno i0 j0).
Qed.

Lemma C10_hash_map_second_index_least_witness :
  ∃ p q, two_sum_hash_map [1; 2; 3; 4; 5] 6 = Return [p; q] ∧
    (p < q)%nat ∧ sums_to [1; 2; 3; 4; 5] 6 p q ∧
    ∀ p' q', (p' < q')%nat → sums_to [1; 2; 3; 4; 5] 6 p' q' → (q ≤ q')%nat.
Proof.
  apply (C10_hash_map_second_index_least [1; 2; 3; 4; 5] 6).
  exists 0%nat, 4%nat. split; [lia|]. exists 1, 5. by split_and!.
Defined.

Lemma scan_1_1_5 :
  scan_state [1; 1; 5] 6 1 {[1 := 0%nat]} ∧
  scan_state [1; 1; 5] 6 2 {[1 := 1%nat]}.
Proof.
  assert (scan_state [1; 1; 5] 6 1 {[1 := 0%nat]}) as H1.
  { apply (scan_step _ _ 0 ∅ 1); [constructor|done|done]. }
  split; [done|].
  apply (scan_step _ _ 1 {[1 := 0%nat]} 1); [done|done|].
  apply hash_map_body_Next. split; [done|]. by rewrite insert_singleton_eq.
Qed.

(** C3, as stated, fails: on [[1; 1; 5]] with target 6 the dictionary at the
    top of iteration 2 binds the value 1 to position 1, not to its first
    position 0, and iteration 1 has overwritten the binding [1 -> 0]. *)
Lemma C3_first_occurrence_counterexample :
  ¬ binds_first_seen [1; 1; 5] 6 ∧ ¬ keeps_existing_binding [1; 1; 5] 6 ∧
  two_sum_hash_map [1; 1; 5] 6 = Return [1; 2]%nat.
Proof.
  destruct scan_1_1_5 as [H1 H2]. split_and!.
  - intros Hinv.
    destruct (Hinv 2%nat {[1 := 1%nat]} 1 1%nat H2) as [_ Hfirst]; [done|].
    by apply (Hfirst 0%nat); [lia|].
  - intros Hkeep.
    assert (<[1 := 1%nat]> ({[1 := 0%nat]} : gmap Z nat) !! 1 = Some 0%nat)
      as Hbad.
    { apply (Hkeep 1%nat {[1 := 0%nat]} 1 _ 0%nat); [done|done| |done].
      apply hash_map_body_Next. split; done. }
    rewrite lookup_insert_eq in Hbad. discriminate.
  - vm_compute. reflexivity.
Qed.

(** C3, amended (last occurrence wins).  At every step of the left-to-right
    scan of [two_sum_hash_map], the dictionary binds exactly the values seen
    so far, each to the last position where it has been seen; an iteration
    that goes on stores [num -> k] whether or not [num] is already a key,
    replacing an earlier binding of [num] and leaving every other key as it
    was. *)
Theorem C3_last_occurrence_invariant (nums : list Z) (target : Z) (k : nat)
    (m : gmap Z nat) :
  scan_state nums target k m →
  (∀ v p, m !! v = Some p ↔ last_seen nums k v p) ∧
  (∀ num m', nums !! k = Some num →
     hash_map_body target (k, num) m = Next m' →
     m' !! num = Some k ∧ ∀ v, v ≠ num → m' !! v = m !! v).
Proof.
  intros Hst. split; [by apply (scan_state_last_seen nums target)|].
  intros num m' _ [_ ->]%hash_map_body_Next. split.
  - apply lookup_insert_eq.
  - intros v Hv. by apply lookup_insert_ne.
Qed.

Lemma C3_last_occurrence_invariant_witness :
  (∀ v p, ({[1 := 1%nat]} : gmap Z nat) !! v = Some p ↔
          last_seen [1; 1; 5] 2 v p) ∧
  (∀ num m', [1; 1; 5] !! 2%nat = Some num →
     hash_map_body 6 (2%nat, num) {[1 := 1%nat]} = Next m' →
     m' !! num = Some 2%nat ∧
     ∀ v, v ≠ num → m' !! v = ({[1 := 1%nat]} : gmap Z nat) !! v).
Proof.
  apply (C3_last_occurrence_invariant [1; 1; 5] 6 2 {[1 := 1%nat]}).
  apply (scan_step _ _ 1 {[1 := 0%nat]} 1).
  - apply (scan_step _ _ 0 ∅ 1); [constructor|reflexivity|reflexivity].
  - reflexivity.
  - vm_compute. reflexivity.
Defined.

(** C4 (ordered result of the hash-map scan).  A non-empty result of
    [two_sum_hash_map] is [[p; q]] where [q] is the first position whose
    complement is a key of the dictionary at that step, [p] is the position
    bound to that complement, and [p < q]. *)
Theorem C4_hash_map_ordered (nums : list Z) (target : Z) (r : list nat) :
  two_sum_hash_map nums target = Return r → r ≠ [] →
  ∃ p q m num, r = [p; q] ∧ (p < q)%nat ∧
    scan_state nums target q m ∧ nums !! q = Some num ∧
    m !! (target - num) = Some p ∧
    ∀ q' m' num', (q' < q)%nat → scan_state nums target q' m' →
      nums !! q' = Some num' → m' !! (target - num') = None.
Proof.
  intros Hr Hne.
  destruct (hash_map_spec nums target)
    as [(p & q & m & num & Hr' & Hst & Hnum & Hp)|[Hr' _]];
    [|congruence].
  exists p, q, m, num.
  destruct (hash_map_hit _ _ _ _ _ _ Hst Hnum Hp) as (Hpq & _).
  split_and!; [congruence|done..|].
  intros q' m' num' Hq' Hst' Hnum'.
  apply (scan_state_None _ _ _ _ _ Hst'). intros p' Hp' Hv.
  apply (scan_state_no_pair _ _ _ _ Hst p' q'); [lia|].
  exists (target - num'), num'. split_and!; [done..|lia].
Qed.

Lemma C4_hash_map_ordered_witness :
  ∃ p q m num, [1; 2]%nat = [p; q] ∧ (p < q)%nat ∧
    scan_state [1; 1; 5] 6 q m ∧ [1; 1; 5] !! q = Some num ∧
    m !! (6 - num) = Some p ∧
    ∀ q' m' num', (q' < q)%nat → scan_state [1; 1; 5] 6 q' m' →
      [1; 1; 5] !! q' = Some num' → m' !! (6 - num') = None.
Proof.
  apply (C4_hash_map_ordered [1; 1; 5] 6 [1; 2]%nat).
  - vm_compute. reflexivity.
  - discriminate.
Defined.

Lemma finder_contract_unique nums target result i j :
  finder_contract nums target result →
  i ≠ j → sums_to nums target i j →
  (∀ i' j', i' ≠ j' → sums_to nums target i' j' →
     (i' = i ∧ j' = j) ∨ (i' = j ∧ j' = i)) →
  names_pair i j result.
Proof.
  intros Hc Hij Hs Huniq.
  destruct (finder_contract_found _ _ _ _ _ Hc Hij Hs)
    as (i' & j' & -> & Hij' & Hs').
  destruct (Huniq i' j' Hij' Hs') as [[-> ->]|[-> ->]]; [by left|by right].
Qed.

(** C5 (agreement under a unique solution).  When exactly one unordered pair
    of different positions [{i, j}] adds up to [target], each of the three
    variants returns a non-empty result, and each result names the positions
    [i] and [j], in one order or the other. *)
Theorem C5_unique_solution_agreement (nums : list Z) (target : Z) (i j : nat) :
  i ≠ j → sums_to nums target i j →
  (∀ i' j', i' ≠ j' → sums_to nums target i' j' →
     (i' = i ∧ j' = j) ∨ (i' = j ∧ j' = i)) →
  names_pair i j (two_sum_brute_force nums target) ∧
  names_pair i j (two_sum_hash_map nums target) ∧
  names_pair i j (two_sum_two_pointers nums target).
Proof.
  intros Hij Hs Huniq.
  split_and!; apply (finder_contract_unique nums target); try done.
  - apply brute_force_contract.
  - apply hash_map_contract.
  - apply two_pointers_contract.
Qed.

Lemma C5_unique_solution_agreement_witness :
  names_pair 1 2 (two_sum_brute_force [3; 2; 4] 6) ∧
  names_pair 1 2 (two_sum_hash_map [3; 2; 4] 6) ∧
  names_pair 1 2 (two_sum_two_pointers [3; 2; 4] 6).
Proof.
  apply (C5_unique_solution_agreement [3; 2; 4] 6 1 2).
  - lia.
  - exists 2, 4. split_and!; reflexivity.
  - intros i' j' Hij' (a & b & Ha & Hb & Hab).
    destruct i' as [|[|[|i']]]; destruct j' as [|[|[|j']]];
      simpl in Ha, Hb; simplify_eq; try lia; auto.
Defined.

(** C6 (duplicate values).  When a value [v] occurs at two positions
    [p < q] and [target = 2 * v], [two_sum_hash_map] returns a pair of two
    different positions [a < b] adding up to the target, and if the scan
    reaches the later occurrence [q] its complement lookup finds the stored
    position of an earlier occurrence of [v]; on [[3; 3]] with target 6 every
    variant returns the positions 0 and 1. *)
Theorem C6_duplicate_values :
  (∀ (nums : list Z) (v : Z) (p q : nat),
     (p < q)%nat → nums !! p = Some v → nums !! q = Some v →
     (∃ a b, two_sum_hash_map nums (2 * v) = Return [a; b] ∧
        (a < b)%nat ∧ sums_to nums (2 * v) a b) ∧
     (∀ m, scan_state nums (2 * v) q m →
        ∃ p', (p' < q)%nat ∧ nums !! p' = Some v ∧
          hash_map_body (2 * v) (q, v) m = Return [p'; q])) ∧
  two_sum_brute_force [3; 3] 6 = Return [0; 1]%nat ∧
  two_sum_hash_map [3; 3] 6 = Return [0; 1]%nat ∧
  two_sum_two_pointers [3; 3] 6 = Return [0; 1]%nat.
Proof.
  split_and!; [|reflexivity|vm_compute; reflexivity..].
  intros nums v p q Hpq Hp Hq. split.
  - destruct (hash_map_spec nums (2 * v))
      as [(a & b & m & num & Hr & Hst & Hnum & Ha)|[_ Hno]].
    + exists a, b.
      destruct (hash_map_hit _ _ _ _ _ _ Hst Hnum Ha) as (Hab & Hs & _).
      by split_and!.
    + destruct (Hno p q Hpq). exists v, v. split_and!; [done..|lia].
  - intros m Hst.
    destruct (last_seen_exists nums q v p Hpq Hp) as [p' Hlast].
    pose proof Hlast as (Hp' & Hv & _).
    apply (scan_state_last_seen _ _ _ _ Hst) in Hlast.
    exists p'. split_and!; [done..|].
    apply hash_map_body_Return. exists p'. split; [|done].
    by replace (2 * v - v) with v by lia.
Qed.

Lemma C6_duplicate_values_witness :
  (∃ a b, two_sum_hash_map [3; 1; 3] (2 * 3) = Return [a; b] ∧
     (a < b)%nat ∧ sums_to [3; 1; 3] (2 * 3) a b) ∧
  (∀ m, scan_state [3; 1; 3] (2 * 3) 2 m →
     ∃ p', (p' < 2)%nat ∧ [3; 1; 3] !! p' = Some 3 ∧
       hash_map_body (2 * 3) (2%nat, 3) m = Return [p'; 2%nat]).
Proof.
  apply (proj1 C6_duplicate_values [3; 1; 3] 3 0%nat 2%nat).
  - lia.
  - reflexivity.
  - reflexivity.
Defined.

(** C8 (termination).  Every variant returns on every input: the two [for]
    loops run over finite lists, and the two-pointer loop returns within
    [len(nums)] iterations (more fuel does not change its result).  An
    iteration of the two-pointer loop that does not return advances [left]
    when the sum is below the target and retreats [right] when it is above,
    so [right - left] drops by one; and the loop stops as soon as [left]
    meets or crosses [right]. *)
Theorem C8_termination (nums : list Z) (target : Z) :
  (∃ r, two_sum_brute_force nums target = Return r) ∧
  (∃ r, two_sum_hash_map nums target = Return r) ∧
  (∃ r, two_sum_two_pointers nums target = Return r ∧
     ∀ fuel, (len nums ≤ fuel)%nat →
       two_sum_two_pointers_fuel fuel nums target = Return r) ∧
  (∀ indexed_nums s s',
     two_pointers_body indexed_nums target s = Next s' →
     ∃ l r, getitem indexed_nums s.1 = Next l ∧
       getitem indexed_nums s.2 = Next r ∧
       ((l.1 + r.1 < target ∧ s' = (s.1 + 1, s.2)) ∨
        (l.1 + r.1 > target ∧ s' = (s.1, s.2 - 1))) ∧
       s'.2 - s'.1 = s.2 - s.1 - 1) ∧
  (∀ indexed_nums fuel s,
     s.2 ≤ s.1 →
     while fuel two_pointers_cond (two_pointers_body indexed_nums target) s
       = Next s) ∧
  (∀ fuel s,
     while fuel two_pointers_cond
       (two_pointers_body (indexed_sorted nums) target)
       (0, Z.of_nat (len (indexed_sorted nums)) - 1) = Next s →
     s.2 ≤ s.1).
Proof.
  split_and!.
  - apply (finder_contract_returns nums target), brute_force_contract.
  - apply (finder_contract_returns nums target), hash_map_contract.
  - destruct (finder_contract_returns nums target _
                (two_pointers_contract nums target)) as [r Hr].
    exists r. split; [done|]. intros fuel Hfuel.
    by rewrite two_pointers_fuel_enough.
  - intros indexed_nums [left right] s'. unfold two_pointers_body. simpl.
    destruct (getitem indexed_nums left) as [l| | |]; [|done..].
    destruct (getitem indexed_nums right) as [r| | |]; [|done..]. simpl.
    intros Hs'. exists l, r. split_and!; [done..| |];
      repeat case_bool_decide; simplify_eq; simpl; try lia.
    + left. split; [lia|done].
    + right. split; [lia|done].
  - intros indexed_nums fuel s Hs.
    assert (two_pointers_cond s = false) as Hc
      by (apply bool_decide_eq_false; lia).
    destruct fuel; simpl; by rewrite Hc.
  - intros fuel s. remember (0, _) as s0 eqn:Hs0. clear Hs0.
    revert s0. induction fuel as [|fuel IH]; intros s0; simpl.
    + destruct (two_pointers_cond s0) eqn:Hc; [done|].
      intros [= <-]. apply bool_decide_eq_false in Hc. lia.
    + destruct (two_pointers_cond s0) eqn:Hc.
      * destruct (two_pointers_body _ _ s0); [apply IH|done..].
      * intros [= <-]. apply bool_decide_eq_false in Hc. lia.
Qed.

Lemma C8_termination_witness :
  (∃ l r, getitem [(1, 0%nat); (5, 1%nat)] 0 = Next l ∧
     getitem [(1, 0%nat); (5, 1%nat)] 1 = Next r ∧
     ((l.1 + r.1 < 9 ∧ (1, 1) = (0 + 1, 1)) ∨
      (l.1 + r.1 > 9 ∧ (1, 1) = (0, 1 - 1))) ∧
     1 - 1 = 1 - 0 - 1) ∧
  two_sum_two_pointers_fuel 7 [1; 5] 9 = Return [].
Proof.
  destruct (C8_termination [1; 5] 9)
    as (_ & _ & (r & Hr & Hfuel) & Hstep & _ & _).
  split.
  - apply (Hstep [(1, 0%nat); (5, 1%nat)] (0, 1) (1, 1)).
    vm_compute. reflexivity.
  - rewrite (Hfuel 7%nat) by (simpl; lia). rewrite <- Hr.
    vm_compute. reflexivity.
Defined.

(** C9 (purity and non-mutation).  Called with the address of a list [xs]
    in the store, each variant returns what the value-level function
    computes from [xs]; the caller's list and every other object already in
    the store are unchanged afterwards (the dictionary and the sorted copy
    are new objects); and a second call with the same arguments returns the
    same result. *)
Theorem C9_purity (h : gmap loc pyobj) (nums : loc) (xs : list Z)
    (target : Z) :
  h !! nums = Some (PyList xs) →
  pure_call two_sum_brute_force_at (two_sum_brute_force xs target)
    h nums xs target ∧
  pure_call two_sum_hash_map_at (two_sum_hash_map xs target)
    h nums xs target ∧
  pure_call two_sum_two_pointers_at (two_sum_two_pointers xs target)
    h nums xs target.
Proof.
  intros Hnums.
  assert (h !! fresh (dom h) = None) as Hfresh
    by apply not_elem_of_dom, is_fresh.
  assert (fresh (dom h) ≠ nums) as Hne by (intros Heq; congruence).
  split_and!.
  - destruct (finder_contract_returns xs target _
                (brute_force_contract xs target)) as [r Hr].
    exists r, h, h. rewrite (brute_force_at_pure h nums xs target Hnums).
    by rewrite Hr.
  - destruct (finder_contract_returns xs target _
                (hash_map_contract xs target)) as [r Hr].
    destruct (hash_map_at_pure h nums xs target Hnums) as [m Hm].
    set (h' := <[fresh (dom h) := PyDict m]> h) in *.
    assert (h' !! nums = Some (PyList xs)) as Hnums'
      by (unfold h'; by rewrite lookup_insert_ne).
    destruct (hash_map_at_pure h' nums xs target Hnums') as [m' Hm'].
    eexists r, h', _. rewrite Hm, Hm', Hr.
    split_and!; [done..| |done]. by apply insert_subseteq.
  - destruct (finder_contract_returns xs target _
                (two_pointers_contract xs target)) as [r Hr].
    set (h' := <[fresh (dom h) := PyPairs (indexed_sorted xs)]> h).
    assert (h' !! nums = Some (PyList xs)) as Hnums'
      by (unfold h'; by rewrite lookup_insert_ne).
    eexists r, h', _.
    rewrite (two_pointers_at_pure h nums xs target Hnums).
    rewrite (two_pointers_at_pure h' nums xs target Hnums'). rewrite Hr.
    split_and!; [done..| |done]. by apply insert_subseteq.
Qed.

Lemma C9_purity_witness :
  pure_call two_sum_brute_force_at (two_sum_brute_force [3; 2; 4] 6)
    {[7%nat := PyList [3; 2; 4]]} 7%nat [3; 2; 4] 6 ∧
  pure_call two_sum_hash_map_at (two_sum_hash_map [3; 2; 4] 6)
    {[7%nat := PyList [3; 2; 4]]} 7%nat [3; 2; 4] 6 ∧
  pure_call two_sum_two_pointers_at (two_sum_two_pointers [3; 2; 4] 6)
    {[7%nat := PyList [3; 2; 4]]} 7%nat [3; 2; 4] 6.
Proof.
  apply (C9_purity {[7%nat := PyList [3; 2; 4]]} 7%nat [3; 2; 4] 6).
  reflexivity.
Defined.

(** The store-level functions run: the dictionary ends up at a new address
    and the caller's list is still in place. *)
Example hash_map_at_run :
  two_sum_hash_map_at 0%nat 6 {[0%nat := PyList [3; 2; 4]]} =
    (Return [1; 2]%nat,
     {[0%nat := PyList [3; 2; 4]; 1%nat := PyDict {[3 := 0%nat; 2 := 1%nat]}]}).
Proof. vm_compute. reflexivity. Qed.

(** ** Further properties: the order of the sorted copy *)

Lemma StronglySorted_lookup_lt {A} (R : relation A) l a b x y :
  StronglySorted R l →
  l !! a = Some x → l !! b = Some y → (a < b)%nat → R x y.
Proof.
  intros Hl. revert a b. induction Hl as [|z l Hl IH Hz]; intros a b; [done|].
  destruct a as [|a], b as [|b]; simpl; intros Ha Hb Hab; try lia.
  - simplify_eq. rewrite Forall_forall in Hz. apply Hz.
    by eapply list_elem_of_lookup_2.
  - apply (IH a b); [done..|lia].
Qed.

Lemma StronglySorted_from_lookup {A} (R : relation A) l :
  (∀ a b x y, l !! a = Some x → l !! b = Some y → (a < b)%nat → R x y) →
  StronglySorted R l.
Proof.
  induction l as [|z l IH]; intros Hl; constructor.
  - apply IH. intros a b x y Ha Hb Hab. apply (Hl (S a) (S b)); [done..|lia].
  - apply Forall_forall. intros y [b Hb]%list_elem_of_lookup.
    apply (Hl 0%nat (S b)); [done..|lia].
Qed.

Section SortOrder.
Context {A : Type} (key : A → Z) (R : relation A).

Lemma key_then_key_le x y : key_then key R x y → key x ≤ key y.
Proof. unfold key_then. lia. Qed.

Lemma insert_by_key_key_then x l :
  Forall (R x) l → StronglySorted (key_then key R) l →
  StronglySorted (key_then key R) (insert_by_key key x l).
Proof.
  intros HR Hl. induction Hl as [|y l Hl IH Hy]; simpl.
  - repeat constructor.
  - apply Forall_cons in HR as [HRy HR]. case_bool_decide as Hxy.
    + constructor; [by constructor|]. constructor.
      * unfold key_then. destruct (decide (key x = key y)); [by right|left; lia].
      * rewrite Forall_forall in Hy, HR. apply Forall_forall. intros z Hz.
        pose proof (key_then_key_le _ _ (Hy z Hz)).
        unfold key_then. destruct (decide (key x = key z)); [right|left; lia].
        split; [done|by apply HR].
    + constructor; [by apply IH|]. rewrite insert_by_key_perm.
      constructor; [|done]. left. lia.
Qed.

Lemma sort_by_key_key_then l :
  StronglySorted R l → StronglySorted (key_then key R) (sort_by_key key l).
Proof.
  induction 1 as [|x l Hl IH Hx]; simpl; [constructor|].
  apply insert_by_key_key_then; [|done]. by rewrite sort_by_key_perm.
Qed.
End SortOrder.

Lemma indexed_index_lt nums : StronglySorted index_lt (indexed nums).
Proof.
  apply StronglySorted_from_lookup. intros a b x y.
  rewrite !lookup_indexed. unfold index_lt.
  destruct (nums !! a), (nums !! b); intros; simplify_eq/=; lia.
Qed.

(** Two entries of the sorted copy, in the order of the copy. *)
Lemma indexed_sorted_order nums a b x y :
  indexed_sorted nums !! a = Some x → indexed_sorted nums !! b = Some y →
  (a < b)%nat → x.1 < y.1 ∨ (x.1 = y.1 ∧ (x.2 < y.2)%nat).
Proof.
  intros Ha Hb Hab.
  apply (StronglySorted_lookup_lt (key_then fst index_lt)
           (indexed_sorted nums) a b); [|done..].
  apply sort_by_key_key_then, indexed_index_lt.
Qed.

Lemma indexed_sorted_value_index_le nums a b x y :
  indexed_sorted nums !! a = Some x → indexed_sorted nums !! b = Some y →
  (a ≤ b)%nat → value_index_le nums x.2 y.2.
Proof.
  intros Ha Hb Hab. exists x.1, y.1.
  split_and!; [by eapply indexed_sorted_lookup..|].
  destruct (decide (a = b)) as [->|].
  - right. simplify_eq. split; [done|lia].
  - destruct (indexed_sorted_order nums a b x y) as [|[? ?]];
      [done|done|lia|by left|right]. split; [done|lia].
Qed.

Lemma value_index_le_antisym nums i k :
  value_index_le nums i k → value_index_le nums k i → i = k.
Proof.
  intros (a & b & Ha & Hb & Hab) (b' & a' & Hb' & Ha' & Hba).
  simplify_eq. lia.
Qed.

(** ** Further properties: where the two-pointer loop returns *)

(** A [return] out of the loop happens in a state reached under the
    invariant. *)
Lemma while_return_state {S} (I : S → Prop) (cond : S → bool)
    (body : S → flow S) :
  (∀ s s', I s → cond s = true → body s = Next s' → I s') →
  ∀ fuel s r, I s → while fuel cond body s = Return r →
    ∃ s', I s' ∧ cond s' = true ∧ body s' = Return r.
Proof.
  intros Hstep. induction fuel as [|fuel IH]; intros s r HI; simpl.
  - by destruct (cond s).
  - destruct (cond s) eqn:Hc; [|done].
    destruct (body s) as [s'| | |] eqn:Hb; try done.
    + apply IH. by apply (Hstep s).
    + intros [= <-]. by exists s.
Qed.

Lemma two_pointers_inv_step nums target s s' :
  two_pointers_inv nums target s → two_pointers_cond s = true →
  two_pointers_body (indexed_sorted nums) target s = Next s' →
  two_pointers_inv nums target s' ∧
  two_pointers_gap s = S (two_pointers_gap s').
Proof.
  intros Hinv Hc Hb.
  destruct (two_pointers_body_step nums target s Hinv Hc) as [_ Hstep].
  rewrite Hb in Hstep. split; [apply Hstep|].
  apply bool_decide_eq_true in Hc.
  destruct s as [left right]. unfold two_pointers_body in Hb. simpl in *.
  destruct (getitem (indexed_sorted nums) left); [|done..].
  destruct (getitem (indexed_sorted nums) right); [|done..]. simpl in Hb.
  unfold two_pointers_gap.
  repeat case_bool_decide; simplify_eq; simpl; lia.
Qed.

Lemma two_pointers_return_outer nums target s r :
  two_pointers_inv nums target s → two_pointers_cond s = true →
  two_pointers_body (indexed_sorted nums) target s = Return r →
  two_pointers_outer nums target r.
Proof.
  destruct s as [left right].
  intros (Hl & Hr & Hpairs) Hlt%bool_decide_eq_true. simpl in *.
  unfold two_pointers_body. simpl. rewrite !getitem_nonneg by lia.
  destruct (indexed_sorted nums !! Z.to_nat left) as [x|] eqn:Hx; [|done].
  destruct (indexed_sorted nums !! Z.to_nat right) as [y|] eqn:Hy; [|done].
  simpl. case_bool_decide as Hsum; [|by case_bool_decide].
  intros [= <-]. exists (Z.to_nat left), (Z.to_nat right), x, y.
  split_and!; [lia|done..|].
  intros a' b' x' y' Hab' Ha' Hb' Hsum'.
  destruct (Hpairs a' b' x' y' Hab' Ha' Hb' Hsum'). lia.
Qed.

Lemma two_pointers_result_outer nums target r :
  two_sum_two_pointers nums target = Return r → r ≠ [] →
  two_pointers_outer nums target r.
Proof.
  unfold two_sum_two_pointers, two_sum_two_pointers_fuel. intros Hr Hne.
  destruct (while _ _ _ _) as [s'|r'| |] eqn:Hw; simpl in Hr; simplify_eq.
  destruct (while_return_state (two_pointers_inv nums target)
              two_pointers_cond
              (two_pointers_body (indexed_sorted nums) target))
    with (fuel := len nums) (r := r)
         (s := (0, Z.of_nat (len (indexed_sorted nums)) - 1))
    as (s & Hinv & Hc & Hb).
  - intros s s' Hinv Hc Hb. by eapply two_pointers_inv_step.
  - apply two_pointers_inv_init.
  - done.
  - by eapply two_pointers_return_outer.
Qed.

(** A position that is half of a pair lies, in the sorted copy, between the
    two positions the loop returns. *)
Lemma two_pointers_outer_bounds nums target i j k :
  two_pointers_outer nums target [i; j] → in_some_pair nums target k →
  value_index_le nums i k ∧ value_index_le nums k j.
Proof.
  intros (a & b & x & y & Hab & Ha & Hb & Hsum & [= -> ->] & Hout)
    (k' & Hk' & (u & v & Hu & Hv & Huv)).
  apply elem_of_indexed_sorted, list_elem_of_lookup in Hu as [c Hc].
  apply elem_of_indexed_sorted, list_elem_of_lookup in Hv as [c' Hc'].
  assert (c ≠ c') by (intros ->; congruence).
  assert ((a ≤ c)%nat ∧ (c ≤ b)%nat) as [Hac Hcb].
  { destruct (decide (c < c')%nat).
    - destruct (Hout c c' (u, k) (v, k')); [done..|lia].
    - destruct (Hout c' c (v, k') (u, k)); [lia|done|done|simpl; lia|lia]. }
  split.
  - by apply (indexed_sorted_value_index_le nums a c x (u, k)).
  - by apply (indexed_sorted_value_index_le nums c b (u, k) y).
Qed.

(** ** Further properties: which pair each strategy returns *)

Lemma finder_contract_empty_iff nums target result :
  finder_contract nums target result →
  result = Return [] ↔ no_pair nums target.
Proof.
  intros [(i & j & -> & Hij & Hs)|[-> Hno]]; split; try done.
  intros Hno. by destruct (Hno i j).
Qed.

Lemma brute_force_return_iff nums target i j :
  two_sum_brute_force nums target = Return [i; j] ↔
  (i < j)%nat ∧ sums_to nums target i j ∧
  ∀ i' j', (i' < j')%nat → sums_to nums target i' j' →
    (i < i')%nat ∨ (i = i' ∧ (j ≤ j')%nat).
Proof.
  destruct (brute_force_spec nums target)
    as [(i0 & j0 & Hr & Hij0 & Hs0 & Hleast0)|[Hr Hno]]; rewrite Hr; split.
  - by intros [= <- <-].
  - intros (Hij & Hs & Hleast).
    destruct (Hleast0 i j Hij Hs), (Hleast i0 j0 Hij0 Hs0);
      repeat f_equal; lia.
  - done.
  - intros (Hij & Hs & _). by destruct (Hno i j).
Qed.

Lemma hash_map_return_iff nums target p q :
  two_sum_hash_map nums target = Return [p; q] ↔
  (p < q)%nat ∧ sums_to nums target p q ∧
  (∀ p' q', (p' < q')%nat → sums_to nums target p' q' → (q ≤ q')%nat) ∧
  (∀ p', (p < p' < q)%nat → ¬ sums_to nums target p' q).
Proof.
  destruct (hash_map_spec nums target)
    as [(p0 & q0 & m & num & Hr & Hst & Hnum & Hp)|[Hr Hno]]; rewrite Hr.
  - destruct (hash_map_hit _ _ _ _ _ _ Hst Hnum Hp)
      as (Hpq0 & Hs0 & Hmin0 & Hlast0).
    split; [by intros [= <- <-]|].
    intros (Hpq & Hs & Hmin & Hlast).
    assert (q = q0) as ->
      by (pose proof (Hmin p0 q0 Hpq0 Hs0); pose proof (Hmin0 p q Hpq Hs); lia).
    destruct (decide (p = p0)) as [->|Hne]; [done|exfalso].
    destruct (decide (p < p0)%nat).
    + by apply (Hlast p0).
    + apply (Hlast0 p); [lia|done].
  - split; [done|]. intros (Hpq & Hs & _). by destruct (Hno p q).
Qed.

Lemma two_pointers_return_iff nums target i j :
  two_sum_two_pointers nums target = Return [i; j] ↔
  i ≠ j ∧ sums_to nums target i j ∧
  ∀ k, in_some_pair nums target k →
    value_index_le nums i k ∧ value_index_le nums k j.
Proof.
  split.
  - intros Hr.
    destruct (finder_contract_sound nums target _ [i; j]
                (two_pointers_contract nums target) Hr)
      as (i' & j' & [= <- <-] & Hij & Hs); [done|].
    split_and!; [done..|]. intros k Hk.
    apply (two_pointers_outer_bounds nums target); [|done].
    by apply two_pointers_result_outer.
  - intros (Hij & Hs & Hout).
    destruct (finder_contract_found nums target _ i j
                (two_pointers_contract nums target) Hij Hs)
      as (i0 & j0 & Hr & Hij0 & Hs0).
    assert (two_pointers_outer nums target [i0; j0]) as Hout0
      by (by apply two_pointers_result_outer).
    assert (in_some_pair nums target i) as Hi by (by exists j).
    assert (in_some_pair nums target j) as Hj
      by (exists i; split; [done|by apply sums_to_sym]).
    assert (in_some_pair nums target i0) as Hi0 by (by exists j0).
    assert (in_some_pair nums target j0) as Hj0
      by (exists i0; split; [done|by apply sums_to_sym]).
    assert (i = i0) as ->.
    { apply (value_index_le_antisym nums).
      - apply (Hout i0 Hi0).
      - apply (two_pointers_outer_bounds nums target i0 j0 i Hout0 Hi). }
    assert (j = j0) as ->.
    { apply (value_index_le_antisym nums).
      - apply (two_pointers_outer_bounds nums target i0 j0 j Hout0 Hj).
      - apply (Hout j0 Hj0). }
    done.
Qed.

(** X1 (the pair the hash-map scan returns).  [two_sum_hash_map] returns
    [[p; q]] exactly when [q] is the least position that has an earlier
    partner and [p] is the last position before [q] whose value is the
    complement of the value at [q]. *)
Theorem X1_hash_map_returns_iff (nums : list Z) (target : Z) (p q : nat) :
  two_sum_hash_map nums target = Return [p; q] ↔
  (p < q)%nat ∧ sums_to nums target p q ∧
  (∀ p' q', (p' < q')%nat → sums_to nums target p' q' → (q ≤ q')%nat) ∧
  (∀ p', (p < p' < q)%nat → ¬ sums_to nums target p' q).
Proof. apply hash_map_return_iff. Qed.

Lemma X1_hash_map_returns_iff_witness :
  (1 < 2)%nat ∧ sums_to [1; 1; 5; 1] 6 1 2 ∧
  (∀ p' q', (p' < q')%nat → sums_to [1; 1; 5; 1] 6 p' q' → (2 ≤ q')%nat) ∧
  (∀ p', (1 < p' < 2)%nat → ¬ sums_to [1; 1; 5; 1] 6 p' 2).
Proof.
  apply (proj1 (X1_hash_map_returns_iff [1; 1; 5; 1] 6 1 2)).
  vm_compute. reflexivity.
Defined.

(** X2 (brute force against the hash-map scan).  When both return a pair,
    the brute-force pair [[i; j]] starts no later and the hash-map pair
    [[p; q]] ends no later: [i <= p < q <= j]. *)
Theorem X2_brute_force_vs_hash_map (nums : list Z) (target : Z)
    (i j p q : nat) :
  two_sum_brute_force nums target = Return [i; j] →
  two_sum_hash_map nums target = Return [p; q] →
  (i ≤ p)%nat ∧ (p < q)%nat ∧ (q ≤ j)%nat.
Proof.
  intros (Hij & Hs & Hleast)%brute_force_return_iff
         (Hpq & Hs' & Hmin & _)%hash_map_return_iff.
  pose proof (Hleast p q Hpq Hs'). pose proof (Hmin i j Hij Hs). lia.
Qed.

Lemma X2_brute_force_vs_hash_map_witness :
  (0 ≤ 1)%nat ∧ (1 < 3)%nat ∧ (3 ≤ 4)%nat.
Proof.
  apply (X2_brute_force_vs_hash_map [1; 2; 3; 4; 5] 6 0 4 1 3).
  - reflexivity.
  - vm_compute. reflexivity.
Defined.

(** X3 (the strategies agree on whether there is a solution).  Each of the
    three functions returns the empty list exactly when no two different
    positions add up to the target, so one returns [[]] exactly when the
    others do. *)
Theorem X3_empty_iff_no_pair (nums : list Z) (target : Z) :
  (two_sum_brute_force nums target = Return [] ↔ no_pair nums target) ∧
  (two_sum_hash_map nums target = Return [] ↔ no_pair nums target) ∧
  (two_sum_two_pointers nums target = Return [] ↔ no_pair nums target).
Proof.
  split_and!; apply finder_contract_empty_iff.
  - apply brute_force_contract.
  - apply hash_map_contract.
  - apply two_pointers_contract.
Qed.

Lemma X3_empty_iff_no_pair_witness :
  no_pair [4; 4; 1] 7 ∧ two_sum_hash_map [4; 4; 1] 7 = Return [].
Proof.
  destruct (X3_empty_iff_no_pair [4; 4; 1] 7) as (Hbf & Hhm & _).
  assert (no_pair [4; 4; 1] 7) as Hno
    by (apply (proj1 Hbf); reflexivity).
  split; [exact Hno|]. apply (proj2 Hhm), Hno.
Defined.

(** X4 (order of the two-pointer result).  When [two_sum_two_pointers]
    returns [[i; j]], the value at [i] is not larger than the value at [j],
    and if the two values are equal then [i < j]: the indices come in the
    order of the stably sorted copy, not in the order of the input. *)
Theorem X4_two_pointers_value_order (nums : list Z) (target : Z) (i j : nat) :
  two_sum_two_pointers nums target = Return [i; j] →
  ∃ a b, nums !! i = Some a ∧ nums !! j = Some b ∧
    (a < b ∨ (a = b ∧ (i < j)%nat)).
Proof.
  intros (Hij & Hs & Hout)%two_pointers_return_iff.
  destruct (Hout j) as [(a & b & Ha & Hb & Hab) _].
  { exists i. split; [done|by apply sums_to_sym]. }
  exists a, b. split_and!; [done..|]. lia.
Qed.

Lemma X4_two_pointers_value_order_witness :
  ∃ a b, [4; 9; 2] !! 2%nat = Some a ∧ [4; 9; 2] !! 0%nat = Some b ∧
    (a < b ∨ (a = b ∧ (2 < 0)%nat)).
Proof.
  apply (X4_two_pointers_value_order [4; 9; 2] 6 2 0).
  vm_compute. reflexivity.
Defined.

(** X5 (the pair the two-pointer scan returns).  [two_sum_two_pointers]
    returns [[i; j]] exactly when [i] and [j] are different positions adding
    up to the target and, among all positions that are half of some such
    pair, [i] is the first and [j] the last in the order by value, then by
    position. *)
Theorem X5_two_pointers_returns_iff (nums : list Z) (target : Z) (i j : nat) :
  two_sum_two_pointers nums target = Return [i; j] ↔
  i ≠ j ∧ sums_to nums target i j ∧
  ∀ k, in_some_pair nums target k →
    value_index_le nums i k ∧ value_index_le nums k j.
Proof. apply two_pointers_return_iff. Qed.

Lemma X5_two_pointers_returns_iff_witness :
  (0%nat ≠ 2%nat) ∧ sums_to [3; 3; 3] 6 0 2 ∧
  ∀ k, in_some_pair [3; 3; 3] 6 k →
    value_index_le [3; 3; 3] 0 k ∧ value_index_le [3; 3; 3] k 2.
Proof.
  apply (proj1 (X5_two_pointers_returns_iff [3; 3; 3] 6 0 2)).
  vm_compute. reflexivity.
Defined.

Lemma value_index_le_refl nums i a :
  nums !! i = Some a → value_index_le nums i i.
Proof. intros Ha. exists a, a. split_and!; [done..|]. right. split; [done|lia]. Qed.

(** X6 (results under a unique solution).  When [i < j] is the only pair of
    positions adding up to the target, the brute force and the hash-map scan
    both return [[i; j]], and the two-pointer scan returns [[i; j]] if the
    value at [i] is not larger than the value at [j] and [[j; i]] otherwise. *)
Theorem X6_unique_solution_results (nums : list Z) (target : Z) (i j : nat)
    (a b : Z) :
  (i < j)%nat → nums !! i = Some a → nums !! j = Some b → a + b = target →
  (∀ i' j', (i' < j')%nat → sums_to nums target i' j' → i' = i ∧ j' = j) →
  two_sum_brute_force nums target = Return [i; j] ∧
  two_sum_hash_map nums target = Return [i; j] ∧
  two_sum_two_pointers nums target =
    Return (if bool_decide (a ≤ b) then [i; j] else [j; i]).
Proof.
  intros Hij Ha Hb Hab Huniq.
  assert (sums_to nums target i j) as Hs by (by exists a, b).
  assert (∀ k, in_some_pair nums target k → k = i ∨ k = j) as Hhalf.
  { intros k (k' & Hk' & Hs'). destruct (decide (k < k')%nat).
    - left. by apply (Huniq k k').
    - right. apply (Huniq k' k); [lia|by apply sums_to_sym]. }
  split_and!.
  - apply brute_force_return_iff. split_and!; [done..|].
    intros i' j' Hij' Hs'. destruct (Huniq i' j' Hij' Hs') as [-> ->].
    right. split; [done|lia].
  - apply hash_map_return_iff. split_and!; [done..| |].
    + intros p' q' Hpq' Hs'. destruct (Huniq p' q' Hpq' Hs') as [_ ->]. lia.
    + intros p' Hp' Hs'. destruct (Huniq p' j) as [-> _]; [lia|done|lia].
  - case_bool_decide as Hle; apply two_pointers_return_iff.
    + split_and!; [lia|done|]. intros k [->| ->]%Hhalf.
      * split; [by eapply value_index_le_refl|].
        exists a, b. split_and!; [done..|]. lia.
      * split; [|by eapply value_index_le_refl].
        exists a, b. split_and!; [done..|]. lia.
    + split_and!; [lia|by apply sums_to_sym|]. intros k [->| ->]%Hhalf.
      * split; [|by eapply value_index_le_refl].
        exists b, a. split_and!; [done..|]. lia.
      * split; [by eapply value_index_le_refl|].
        exists b, a. split_and!; [done..|]. lia.
Qed.

Lemma X6_unique_solution_results_witness :
  two_sum_brute_force [4; 9; 2] 6 = Return [0; 2]%nat ∧
  two_sum_hash_map [4; 9; 2] 6 = Return [0; 2]%nat ∧
  two_sum_two_pointers [4; 9; 2] 6 =
    Return (if bool_decide (4 ≤ 2) then [0; 2]%nat else [2; 0]%nat).
Proof.
  apply (X6_unique_solution_results [4; 9; 2] 6 0 2 4 2).
  - lia.
  - reflexivity.
  - reflexivity.
  - reflexivity.
  - intros i' j' Hij' (u & v & Hu & Hv & Huv).
    destruct i' as [|[|[|i']]]; destruct j' as [|[|[|j']]];
      simpl in Hu, Hv; simplify_eq; try lia; auto.
Defined.

(** ** Further properties: the number of iterations of the two-pointer loop *)

Lemma two_pointers_gap_cond s :
  (0 < two_pointers_gap s)%nat → two_pointers_cond s = true.
Proof.
  unfold two_pointers_gap, two_pointers_cond. intros Hgap.
  apply bool_decide_eq_true. lia.
Qed.

(** With less fuel than the distance between the pointers the loop cannot
    run to its exit: it returns a pair or is cut short. *)
Lemma two_pointers_short_fuel nums target fuel s :
  two_pointers_inv nums target s → (fuel < two_pointers_gap s)%nat →
  while fuel two_pointers_cond
    (two_pointers_body (indexed_sorted nums) target) s = OutOfFuel ∨
  ∃ r, while fuel two_pointers_cond
         (two_pointers_body (indexed_sorted nums) target) s = Return r ∧
       two_pointers_post nums target r.
Proof.
  revert s. induction fuel as [|fuel IH]; intros s Hinv Hgap.
  - left. simpl. by rewrite two_pointers_gap_cond by lia.
  - assert (two_pointers_cond s = true) as Hc
      by (apply two_pointers_gap_cond; lia).
    cbn [while]. rewrite Hc.
    destruct (two_pointers_body_step nums target s Hinv Hc) as [_ Hstep].
    destruct (two_pointers_body (indexed_sorted nums) target s)
      as [s'|r| |] eqn:Hb; [|by right; exists r|done..].
    destruct (two_pointers_inv_step nums target s s' Hinv Hc Hb)
      as [Hinv' Hgap'].
    apply IH; [done|lia].
Qed.

Lemma two_pointers_loop_within nums target fuel :
  (length nums - 1 ≤ fuel)%nat →
  while fuel two_pointers_cond
    (two_pointers_body (indexed_sorted nums) target)
    (0, Z.of_nat (len (indexed_sorted nums)) - 1) ≠ OutOfFuel.
Proof.
  intros Hfuel.
  pose proof (while_rule (two_pointers_inv nums target)
    (two_pointers_post nums target) two_pointers_gap two_pointers_cond
    (two_pointers_body (indexed_sorted nums) target)
    (two_pointers_body_step nums target) fuel
    (0, Z.of_nat (len (indexed_sorted nums)) - 1)
    (two_pointers_inv_init nums target)) as Hrule.
  destruct (while _ _ _ _); try done. intros _. apply Hrule.
  unfold two_pointers_gap, len. rewrite length_indexed_sorted. simpl. lia.
Qed.

(** X7 (iterations of the two-pointer loop).  The loop of
    [two_sum_two_pointers] finishes within [len(nums) - 1] iterations on
    every input, and when no pair adds up to the target it needs all of
    them: cut off after fewer iterations it has not finished. *)
Theorem X7_two_pointers_iterations (nums : list Z) (target : Z) (fuel : nat) :
  ((length nums - 1 ≤ fuel)%nat →
   two_sum_two_pointers_fuel fuel nums target =
     two_sum_two_pointers nums target) ∧
  (no_pair nums target → (fuel < length nums - 1)%nat →
   two_sum_two_pointers_fuel fuel nums target = OutOfFuel).
Proof.
  split.
  - intros Hfuel. destruct (decide (length nums ≤ fuel)%nat) as [|Hlt].
    { by apply two_pointers_fuel_enough. }
    unfold two_sum_two_pointers, two_sum_two_pointers_fuel.
    rewrite (while_more_fuel _ _ fuel (len nums)); [done| |unfold len; lia].
    by apply two_pointers_loop_within.
  - intros Hno Hfuel. unfold two_sum_two_pointers_fuel.
    destruct (two_pointers_short_fuel nums target fuel
                (0, Z.of_nat (len (indexed_sorted nums)) - 1))
      as [->|(r & _ & Hpost)].
    + apply two_pointers_inv_init.
    + unfold two_pointers_gap, len. rewrite length_indexed_sorted. simpl. lia.
    + done.
    + destruct (two_pointers_post_sound _ _ _ Hpost) as (i & j & _ & Hij & Hs).
      by destruct (Hno i j).
Qed.

Lemma X7_two_pointers_iterations_witness :
  two_sum_two_pointers_fuel 2 [1; 2; 3] 100 = two_sum_two_pointers [1; 2; 3] 100 ∧
  two_sum_two_pointers_fuel 1 [1; 2; 3] 100 = OutOfFuel.
Proof.
  split.
  - apply (proj1 (X7_two_pointers_iterations [1; 2; 3] 100 2)). simpl. lia.
  - apply (proj2 (X7_two_pointers_iterations [1; 2; 3] 100 1)).
    + apply (proj1 (finder_contract_empty_iff [1; 2; 3] 100 _
                      (brute_force_contract [1; 2; 3] 100))).
      reflexivity.
    + simpl. lia.
Defined.

(** ** Further properties: what the calls leave in the store *)


Section Footprint.
Context (h : gmap loc pyobj) (nums : loc) (xs : list Z) (target : Z).
Hypothesis Hnums : h !! nums = Some (PyList xs).


End Footprint.



(** ** Further properties: shifting the values *)

Lemma sums_to_shift c nums target i j :
  sums_to ((λ v, v + c) <$> nums) (target + 2 * c) i j ↔
  sums_to nums target i j.
Proof.
  unfold sums_to. setoid_rewrite list_lookup_fmap. split.
  - intros (a & b & Ha & Hb & Hab).
    destruct (nums !! i) as [a'|]; [|done].
    destruct (nums !! j) as [b'|]; [|done].
    simpl in *. simplify_eq. exists a', b'. split_and!; [done..|lia].
  - intros (a & b & -> & -> & Hab).
    exists (a + c), (b + c). split_and!; [done..|lia].
Qed.

Lemma value_index_le_shift c nums i k :
  value_index_le ((λ v, v + c) <$> nums) i k ↔ value_index_le nums i k.
Proof.
  unfold value_index_le. setoid_rewrite list_lookup_fmap. split.
  - intros (a & b & Ha & Hb & Hab).
    destruct (nums !! i) as [a'|]; [|done].
    destruct (nums !! k) as [b'|]; [|done].
    simpl in *. simplify_eq. exists a', b'. split_and!; [done..|lia].
  - intros (a & b & -> & -> & Hab).
    exists (a + c), (b + c). split_and!; [done..|lia].
Qed.

Lemma in_some_pair_shift c nums target k :
  in_some_pair ((λ v, v + c) <$> nums) (target + 2 * c) k ↔
  in_some_pair nums target k.
Proof. unfold in_some_pair. by setoid_rewrite sums_to_shift. Qed.

(** Two results with the same description of the returned pair, on inputs
    with the same pairs, are equal. *)
Lemma finder_result_ext nums1 t1 nums2 t2 (res1 res2 : flow Empty_set)
    (P1 P2 : nat → nat → Prop) :
  finder_contract nums1 t1 res1 → finder_contract nums2 t2 res2 →
  (∀ i j, sums_to nums2 t2 i j → sums_to nums1 t1 i j) →
  (∀ i j, res1 = Return [i; j] → P1 i j) →
  (∀ i j, P2 i j → res2 = Return [i; j]) →
  (∀ i j, P1 i j → P2 i j) →
  res1 = res2.
Proof.
  intros [(i & j & Hr1 & _)|[-> Hno]] Hc2 Hsums H1 H2 H12.
  - rewrite Hr1. symmetry. by apply H2, H12, H1.
  - destruct Hc2 as [(i & j & _ & Hij & Hs)|[-> _]]; [|done].
    destruct (Hno i j Hij). by apply Hsums.
Qed.

(** X9 (shifting the input).  Adding a constant [c] to every value and
    [2 * c] to the target changes the result of none of the three
    functions. *)
Theorem X9_shift_invariance (c : Z) (nums : list Z) (target : Z) :
  two_sum_brute_force ((λ v, v + c) <$> nums) (target + 2 * c) =
    two_sum_brute_force nums target ∧
  two_sum_hash_map ((λ v, v + c) <$> nums) (target + 2 * c) =
    two_sum_hash_map nums target ∧
  two_sum_two_pointers ((λ v, v + c) <$> nums) (target + 2 * c) =
    two_sum_two_pointers nums target.
Proof.
  split_and!; symmetry.
  - eapply (finder_result_ext nums target _ (target + 2 * c));
      [apply brute_force_contract|apply brute_force_contract| |
       intros i j; apply brute_force_return_iff|
       intros i j; apply brute_force_return_iff|].
    + intros i j. apply sums_to_shift.
    + intros i j (Hij & Hs & Hleast). split_and!; [done| |].
      * by apply sums_to_shift.
      * intros i' j' Hij' Hs'%sums_to_shift. by apply Hleast.
  - eapply (finder_result_ext nums target _ (target + 2 * c));
      [apply hash_map_contract|apply hash_map_contract| |
       intros i j; apply hash_map_return_iff|
       intros i j; apply hash_map_return_iff|].
    + intros i j. apply sums_to_shift.
    + intros p q (Hpq & Hs & Hmin & Hlast). split_and!; [done| | |].
      * by apply sums_to_shift.
      * intros p' q' Hpq' Hs'%sums_to_shift. by apply (Hmin p' q').
      * intros p' Hp' Hs'%sums_to_shift. by apply (Hlast p').
  - eapply (finder_result_ext nums target _ (target + 2 * c));
      [apply two_pointers_contract|apply two_pointers_contract| |
       intros i j; apply two_pointers_return_iff|
       intros i j; apply two_pointers_return_iff|].
    + intros i j. apply sums_to_shift.
    + intros i j (Hij & Hs & Hout). split_and!; [done| |].
      * by apply sums_to_shift.
      * intros k Hk%in_some_pair_shift. rewrite !value_index_le_shift.
        by apply Hout.
Qed.

(** ** Further properties: the hash-map scan never looks ahead *)

Lemma sums_to_same_prefix nums nums' target n i j :
  take n nums' = take n nums → (i < n)%nat → (j < n)%nat →
  sums_to nums' target i j ↔ sums_to nums target i j.
Proof.
  intros Htake Hi Hj. unfold sums_to.
  rewrite <- (lookup_take_lt nums' n i), <- (lookup_take_lt nums' n j) by done.
  rewrite <- (lookup_take_lt nums n i), <- (lookup_take_lt nums n j) by done.
  by rewrite Htake.
Qed.

(** X10 (the hash-map scan returns at once).  When [two_sum_hash_map]
    returns [[p; q]], the elements after position [q] play no part: every
    list that agrees with the input on the positions [0..q] gives the same
    result. *)
Theorem X10_hash_map_ignores_rest (nums nums' : list Z) (target : Z)
    (p q : nat) :
  two_sum_hash_map nums target = Return [p; q] →
  take (S q) nums' = take (S q) nums →
  two_sum_hash_map nums' target = Return [p; q].
Proof.
  intros (Hpq & Hs & Hmin & Hlast)%hash_map_return_iff Htake.
  apply hash_map_return_iff. split_and!; [done| | |].
  - apply (sums_to_same_prefix nums nums' target (S q)); [done|lia|lia|done].
  - intros p' q' Hpq' Hs'.
    destruct (decide (q ≤ q')%nat) as [|Hlt]; [done|].
    apply (Hmin p' q' Hpq').
    apply (sums_to_same_prefix nums nums' target (S q)) in Hs'; [done..|lia|lia].
  - intros p' Hp' Hs'. apply (Hlast p' Hp').
    apply (sums_to_same_prefix nums nums' target (S q)) in Hs'; [done..|lia|lia].
Qed.

Lemma X10_hash_map_ignores_rest_witness :
  two_sum_hash_map [3; 2; 4; 4; 2; 100] 6 = Return [1; 2]%nat.
Proof.
  apply (X10_hash_map_ignores_rest [3; 2; 4] [3; 2; 4; 4; 2; 100] 6 1 2).
  - vm_compute. reflexivity.
  - reflexivity.
Defined.
